(** * x86 Adler-32 chunk kernels of libdeflate (lib/x86/adler32_impl.h)

    A shallow embedding of the three vectorised chunk functions
    [adler32_sse2_chunk], [adler32_avx2_chunk], [adler32_avx512bw_chunk],
    of the horizontal-reduction macros [ADLER32_FINISH_VEC_CHUNK_128/256/512]
    and of the dispatcher [arch_select_adler32_func].

    Conventions.
    - A w-bit lane is a [Z] in [0, 2^w); every lane operation writes its
      wrap-around out ([u32], [u16]); the signed reading of a 16-bit lane
      is [s16].
    - A vector register is the list of its lanes, lane 0 first (the least
      significant one); a reinterpreting cast between two vector types is
      an explicit function ([v2di_as_v4si], [v16qi_as_v8hi]).
    - Memory is a total map from byte addresses to bytes; pointers are
      byte addresses.
    - Memory is total, so the 16-byte loads of the AVX2 loop, of which
      only the low eight bytes are used, may reach past the chunk.
    - A [do ... while] loop takes fuel, one unit per pass: [None] means
      that the loop did not leave within the given number of passes.
    - The driver (adler32_vec_template.h), [MAX_CHUNK_SIZE] and the
      feature masks of cpu_features.h are outside this file; the last
      two are parameters. *)

From Stdlib Require Import ZArith List Lia Bool PeanoNat.
From Stdlib.Strings Require Import Byte.
Import ListNotations.

Local Open Scope Z_scope.

(** ** Machine integers *)

Definition u32 (x : Z) : Z := x mod 2 ^ 32.
Definition u16 (x : Z) : Z := x mod 2 ^ 16.

(** Signed reading of the 16-bit pattern [x]. *)
Definition s16 (x : Z) : Z :=
  if u16 x <? 2 ^ 15 then u16 x else u16 x - 2 ^ 16.

Arguments u32 : simpl never.
Arguments u16 : simpl never.
Arguments s16 : simpl never.

(** ** Memory *)

Definition memory := nat -> byte.

Definition u8 (b : byte) : Z := Z.of_N (Byte.to_N b).

Arguments u8 : simpl never.

(** The [n] bytes found at addresses [addr], [addr+1], ... *)
Definition load_bytes (mem : memory) (addr n : nat) : list Z :=
  map (fun i => u8 (mem (addr + i)%nat)) (seq 0 n).

(** A memory that holds the bytes [l] from address 0 on, and zero above. *)
Definition mem_of_list (l : list byte) : memory :=
  fun a => nth a l x00.

(** ** Vectors *)

Definition vec := list Z.

Fixpoint map2 (f : Z -> Z -> Z) (a b : vec) : vec :=
  match a, b with
  | x :: a', y :: b' => f x y :: map2 f a' b'
  | _, _ => []
  end.

(** [+] and [*] of the GCC vector extensions on [__v4si], [__v8si],
    [__v16si] (32-bit lanes) and on [__v8hi] (16-bit lanes). *)
Definition vadd32 : vec -> vec -> vec := map2 (fun x y => u32 (x + y)).
Definition vmul32 : vec -> vec -> vec := map2 (fun x y => u32 (x * y)).
Definition vadd16 : vec -> vec -> vec := map2 (fun x y => u16 (x + y)).

Definition zeroes (lanes : nat) : vec := repeat 0 lanes.

Fixpoint list_sum (l : list Z) : Z :=
  match l with
  | [] => 0
  | x :: l' => x + list_sum l'
  end.

(** ** Intrinsics *)

(** A 16-byte load: [*p] on a [__m128i *], [_mm_loadu_si128]. *)
Definition _mm_loadu_si128 (mem : memory) (addr : nat) : vec :=
  load_bytes mem addr 16.

(** [_mm_sad_epu8]: two 64-bit lanes, each the sum of the absolute
    differences of eight byte pairs. *)
Definition _mm_sad_epu8 (a b : vec) : vec :=
  let d := map2 (fun x y => Z.abs (x - y)) a b in
  [list_sum (firstn 8 d); list_sum (skipn 8 d)].

(** The cast [(__v4si)] of a vector of 64-bit lanes: each 64-bit lane is
    two 32-bit lanes, low half first. *)
Definition v2di_as_v4si (v : vec) : vec :=
  flat_map (fun x => [x mod 2 ^ 32; (x / 2 ^ 32) mod 2 ^ 32]) v.

Fixpoint interleave (a b : vec) : vec :=
  match a, b with
  | x :: a', y :: b' => x :: y :: interleave a' b'
  | _, _ => []
  end.

(** [_mm_unpacklo_epi8], [_mm_unpackhi_epi8]: the low (high) eight bytes
    of [a] interleaved with those of [b]. *)
Definition _mm_unpacklo_epi8 (a b : vec) : vec :=
  interleave (firstn 8 a) (firstn 8 b).
Definition _mm_unpackhi_epi8 (a b : vec) : vec :=
  interleave (skipn 8 a) (skipn 8 b).

(** The cast [(__v8hi)] of sixteen bytes: little-endian byte pairs. *)
Fixpoint v16qi_as_v8hi (v : vec) : vec :=
  match v with
  | lo :: hi :: v' => (lo + 256 * hi) :: v16qi_as_v8hi v'
  | _ => []
  end.

(** [_mm_madd_epi16]: signed 16x16 products, adjacent pairs added into
    one 32-bit lane. *)
Fixpoint _mm_madd_epi16 (a b : vec) : vec :=
  match a, b with
  | a0 :: a1 :: a', b0 :: b1 :: b' =>
      u32 (s16 a0 * s16 b0 + s16 a1 * s16 b1) :: _mm_madd_epi16 a' b'
  | _, _ => []
  end.

(** [_mm_slli_epi32], [_mm256_slli_epi32], [_mm512_slli_epi32]. *)
Definition slli_epi32 (v : vec) (count : Z) : vec :=
  map (fun x => u32 (Z.shiftl x count)) v.
Definition _mm_slli_epi32 := slli_epi32.
Definition _mm256_slli_epi32 := slli_epi32.
Definition _mm512_slli_epi32 := slli_epi32.

(** [_mm_shuffle_epi32]: lane [k] of the result is the lane of [v]
    selected by bits [2k+1 : 2k] of the immediate. *)
Definition _mm_shuffle_epi32 (v : vec) (imm : Z) : vec :=
  map (fun k => nth (Z.to_nat (Z.land (Z.shiftr imm (2 * k)) 3)) v 0)
      [0; 1; 2; 3].

(** [_mm_cvtsi128_si32]: lane 0. *)
Definition _mm_cvtsi128_si32 (v : vec) : Z := nth 0%nat v 0.

(** [_mm256_cvtepu8_epi32]: the low eight bytes, zero-extended to eight
    32-bit lanes; [_mm512_cvtepu8_epi32]: all sixteen bytes. *)
Definition _mm256_cvtepu8_epi32 (bytes : vec) : vec := firstn 8 bytes.
Definition _mm512_cvtepu8_epi32 (bytes : vec) : vec := firstn 16 bytes.

(** [_mm256_extracti128_si256] on the eight 32-bit lanes of its operand,
    [_mm512_extracti64x4_epi64] on the sixteen. *)
Definition _mm256_extracti128_si256 (v : vec) (i : Z) : vec :=
  if i =? 0 then firstn 4 v else firstn 4 (skipn 4 v).
Definition _mm512_extracti64x4_epi64 (v : vec) (i : Z) : vec :=
  if i =? 0 then firstn 8 v else firstn 8 (skipn 8 v).

(** ** Horizontal reduction macros

    The counters [*s1], [*s2] are passed and returned as a pair. *)

Definition ADLER32_FINISH_VEC_CHUNK_128 (s : Z * Z) (v_s1 v_s2 : vec)
  : Z * Z :=
  let s1_fin := v_s1 in
  let s2_fin := v_s2 in
  (* 128 => 32 bits *)
  let s2_fin := vadd32 s2_fin (_mm_shuffle_epi32 s2_fin 0x31) in
  let s1_fin := vadd32 s1_fin (_mm_shuffle_epi32 s1_fin 0x02) in
  let s2_fin := vadd32 s2_fin (_mm_shuffle_epi32 s2_fin 0x02) in
  (u32 (fst s + u32 (_mm_cvtsi128_si32 s1_fin)),
   u32 (snd s + u32 (_mm_cvtsi128_si32 s2_fin))).

Definition ADLER32_FINISH_VEC_CHUNK_256 (s : Z * Z) (v_s1 v_s2 : vec)
  : Z * Z :=
  (* 256 => 128 bits *)
  let s1_128bit := vadd32 (_mm256_extracti128_si256 v_s1 0)
                          (_mm256_extracti128_si256 v_s1 1) in
  let s2_128bit := vadd32 (_mm256_extracti128_si256 v_s2 0)
                          (_mm256_extracti128_si256 v_s2 1) in
  ADLER32_FINISH_VEC_CHUNK_128 s s1_128bit s2_128bit.

Definition ADLER32_FINISH_VEC_CHUNK_512 (s : Z * Z) (v_s1 v_s2 : vec)
  : Z * Z :=
  (* 512 => 256 bits *)
  let s1_256bit := vadd32 (_mm512_extracti64x4_epi64 v_s1 0)
                          (_mm512_extracti64x4_epi64 v_s1 1) in
  let s2_256bit := vadd32 (_mm512_extracti64x4_epi64 v_s2 0)
                          (_mm512_extracti64x4_epi64 v_s2 1) in
  ADLER32_FINISH_VEC_CHUNK_256 s s1_256bit s2_256bit.

(** ** Loops *)

(** [do body while (cond)]: the body runs, then the test. *)
Fixpoint do_while {St : Type} (body : St -> St) (cond : St -> bool)
         (fuel : nat) (s : St) : option St :=
  match fuel with
  | O => None
  | S fuel' =>
      let s' := body s in
      if cond s' then do_while body cond fuel' s' else Some s'
  end.

(** ** Kernel descriptors *)

Inductive kernel := SSE2 | AVX2 | AVX512BW.

Definition IMPL_ALIGNMENT (K : kernel) : nat :=
  match K with SSE2 => 16 | AVX2 => 32 | AVX512BW => 64 end%nat.

Definition IMPL_SEGMENT_SIZE (K : kernel) : nat :=
  match K with SSE2 => 32 | AVX2 => 32 | AVX512BW => 64 end%nat.

(** [MAX_CHUNK_SIZE] is defined by the including file and is taken as a
    parameter. *)
Definition IMPL_MAX_CHUNK_SIZE (MAX_CHUNK_SIZE : nat) (K : kernel) : nat :=
  match K with
  | SSE2 => Z.to_nat (32 * (0x7FFF / 0xFF))
  | AVX2 => MAX_CHUNK_SIZE
  | AVX512BW => MAX_CHUNK_SIZE
  end.

(** The chunks the driver may present to kernel [K]: [n] bytes, a
    positive multiple of the segment size, at most the maximum chunk
    size. *)
Definition valid_chunk (MAX_CHUNK_SIZE : nat) (K : kernel) (n : nat) : Prop :=
  (0 < n /\ n mod IMPL_SEGMENT_SIZE K = 0 /\
   n <= IMPL_MAX_CHUNK_SIZE MAX_CHUNK_SIZE K)%nat.

(** ** The SSE2 kernel *)

Module Sse2.
Record regs := {
  p : nat;
  v_s1 : vec;              (* __v4si: 32-bit, sum of bytes *)
  v_s2 : vec;              (* __v4si: 32-bit, sum of s1 values *)
  v_byte_sums_a : vec;     (* __v8hi: 16-bit byte sums *)
  v_byte_sums_b : vec;
  v_byte_sums_c : vec;
  v_byte_sums_d : vec
}.
End Sse2.

Definition sse2_init (p : nat) : Sse2.regs :=
  {| Sse2.p := p;
     Sse2.v_s1 := zeroes 4;
     Sse2.v_s2 := zeroes 4;
     Sse2.v_byte_sums_a := zeroes 8;
     Sse2.v_byte_sums_b := zeroes 8;
     Sse2.v_byte_sums_c := zeroes 8;
     Sse2.v_byte_sums_d := zeroes 8 |}.

(** One pass through the body of the loop of [adler32_sse2_chunk]. *)
Definition sse2_body (mem : memory) (r : Sse2.regs) : Sse2.regs :=
  (* Load the next 32 bytes *)
  let bytes1 := load_bytes mem (Sse2.p r) 16 in
  let p := (Sse2.p r + 16)%nat in
  let bytes2 := load_bytes mem p 16 in
  let p := (p + 16)%nat in
  let v_s2 := vadd32 (Sse2.v_s2 r) (Sse2.v_s1 r) in
  let v_s1 := vadd32 (Sse2.v_s1 r)
                     (v2di_as_v4si (_mm_sad_epu8 bytes1 (zeroes 16))) in
  let v_s1 := vadd32 v_s1
                     (v2di_as_v4si (_mm_sad_epu8 bytes2 (zeroes 16))) in
  {| Sse2.p := p;
     Sse2.v_s1 := v_s1;
     Sse2.v_s2 := v_s2;
     Sse2.v_byte_sums_a :=
       vadd16 (Sse2.v_byte_sums_a r)
              (v16qi_as_v8hi (_mm_unpacklo_epi8 bytes1 (zeroes 16)));
     Sse2.v_byte_sums_b :=
       vadd16 (Sse2.v_byte_sums_b r)
              (v16qi_as_v8hi (_mm_unpackhi_epi8 bytes1 (zeroes 16)));
     Sse2.v_byte_sums_c :=
       vadd16 (Sse2.v_byte_sums_c r)
              (v16qi_as_v8hi (_mm_unpacklo_epi8 bytes2 (zeroes 16)));
     Sse2.v_byte_sums_d :=
       vadd16 (Sse2.v_byte_sums_d r)
              (v16qi_as_v8hi (_mm_unpackhi_epi8 bytes2 (zeroes 16))) |}.

Definition sse2_weights_a : vec := [32; 31; 30; 29; 28; 27; 26; 25].
Definition sse2_weights_b : vec := [24; 23; 22; 21; 20; 19; 18; 17].
Definition sse2_weights_c : vec := [16; 15; 14; 13; 12; 11; 10; 9].
Definition sse2_weights_d : vec := [8; 7; 6; 5; 4; 3; 2; 1].

(** The s2 vector as it is handed to the reduction macro. *)
Definition sse2_final_v_s2 (r : Sse2.regs) : vec :=
  let v_s2 := _mm_slli_epi32 (Sse2.v_s2 r) 5 in
  let v_s2 := vadd32 v_s2
                (_mm_madd_epi16 (Sse2.v_byte_sums_a r) sse2_weights_a) in
  let v_s2 := vadd32 v_s2
                (_mm_madd_epi16 (Sse2.v_byte_sums_b r) sse2_weights_b) in
  let v_s2 := vadd32 v_s2
                (_mm_madd_epi16 (Sse2.v_byte_sums_c r) sse2_weights_c) in
  let v_s2 := vadd32 v_s2
                (_mm_madd_epi16 (Sse2.v_byte_sums_d r) sse2_weights_d) in
  v_s2.

Definition sse2_loop (fuel : nat) (mem : memory) (p end_ : nat)
  : option Sse2.regs :=
  do_while (sse2_body mem) (fun r => negb (Sse2.p r =? end_)%nat)
           fuel (sse2_init p).

Definition adler32_sse2_chunk (fuel : nat) (mem : memory) (p end_ : nat)
           (s : Z * Z) : option (Z * Z) :=
  match sse2_loop fuel mem p end_ with
  | None => None
  | Some r =>
      (* Add the counters to the real s1 and s2 *)
      Some (ADLER32_FINISH_VEC_CHUNK_128 s (Sse2.v_s1 r) (sse2_final_v_s2 r))
  end.

(** ** The AVX2 and AVX-512BW kernels

    Both functions declare the same locals; the lanes are eight
    ([__v8si]) in the first and sixteen ([__v16si]) in the second. *)

Module Wide.
Record regs := {
  p : nat;
  v_s1_a : vec; v_s1_b : vec; v_s1_c : vec; v_s1_d : vec;
  v_s2_a : vec; v_s2_b : vec; v_s2_c : vec; v_s2_d : vec
}.
End Wide.

Definition wide_init (lanes : nat) (p : nat) : Wide.regs :=
  {| Wide.p := p;
     Wide.v_s1_a := zeroes lanes; Wide.v_s1_b := zeroes lanes;
     Wide.v_s1_c := zeroes lanes; Wide.v_s1_d := zeroes lanes;
     Wide.v_s2_a := zeroes lanes; Wide.v_s2_b := zeroes lanes;
     Wide.v_s2_c := zeroes lanes; Wide.v_s2_d := zeroes lanes |}.

(** The statements shared by the two loop bodies, after the loads. *)
Definition wide_accumulate (r : Wide.regs) (p' : nat)
           (bytes0 bytes1 bytes2 bytes3 : vec) : Wide.regs :=
  {| Wide.p := p';
     Wide.v_s2_a := vadd32 (Wide.v_s2_a r) (Wide.v_s1_a r);
     Wide.v_s2_b := vadd32 (Wide.v_s2_b r) (Wide.v_s1_b r);
     Wide.v_s2_c := vadd32 (Wide.v_s2_c r) (Wide.v_s1_c r);
     Wide.v_s2_d := vadd32 (Wide.v_s2_d r) (Wide.v_s1_d r);
     Wide.v_s1_a := vadd32 (Wide.v_s1_a r) bytes0;
     Wide.v_s1_b := vadd32 (Wide.v_s1_b r) bytes1;
     Wide.v_s1_c := vadd32 (Wide.v_s1_c r) bytes2;
     Wide.v_s1_d := vadd32 (Wide.v_s1_d r) bytes3 |}.

(** The statements between the loop and the reduction macro: the four
    s2 groups are added up and shifted, the weighted s1 groups are added
    in, and the four s1 groups are added up.  The result is the pair
    ([v_s1_a], [v_s2_a]) handed to the macro. *)
Definition wide_combine (slli : vec -> Z -> vec) (count : Z)
           (w_a w_b w_c w_d : vec) (r : Wide.regs) : vec * vec :=
  let v_s2_a := vadd32 (Wide.v_s2_a r) (Wide.v_s2_c r) in
  let v_s2_b := vadd32 (Wide.v_s2_b r) (Wide.v_s2_d r) in
  let v_s2_a := vadd32 v_s2_a v_s2_b in
  let v_s2_a := slli v_s2_a count in
  let v_s2_a := vadd32 v_s2_a (vmul32 (Wide.v_s1_a r) w_a) in
  let v_s2_a := vadd32 v_s2_a (vmul32 (Wide.v_s1_b r) w_b) in
  let v_s2_a := vadd32 v_s2_a (vmul32 (Wide.v_s1_c r) w_c) in
  let v_s2_a := vadd32 v_s2_a (vmul32 (Wide.v_s1_d r) w_d) in
  let v_s1_a := vadd32 (Wide.v_s1_a r) (Wide.v_s1_c r) in
  let v_s1_b := vadd32 (Wide.v_s1_b r) (Wide.v_s1_d r) in
  let v_s1_a := vadd32 v_s1_a v_s1_b in
  (v_s1_a, v_s2_a).

(** *** AVX2 *)

Definition avx2_body (mem : memory) (r : Wide.regs) : Wide.regs :=
  let p := Wide.p r in
  let bytes0 := _mm256_cvtepu8_epi32 (_mm_loadu_si128 mem (p + 0)) in
  let bytes1 := _mm256_cvtepu8_epi32 (_mm_loadu_si128 mem (p + 8)) in
  let bytes2 := _mm256_cvtepu8_epi32 (_mm_loadu_si128 mem (p + 16)) in
  let bytes3 := _mm256_cvtepu8_epi32 (_mm_loadu_si128 mem (p + 24)) in
  wide_accumulate r (p + 32) bytes0 bytes1 bytes2 bytes3.

Definition avx2_weights_a : vec := [32; 31; 30; 29; 28; 27; 26; 25].
Definition avx2_weights_b : vec := [24; 23; 22; 21; 20; 19; 18; 17].
Definition avx2_weights_c : vec := [16; 15; 14; 13; 12; 11; 10; 9].
Definition avx2_weights_d : vec := [8; 7; 6; 5; 4; 3; 2; 1].

Definition avx2_loop (fuel : nat) (mem : memory) (p end_ : nat)
  : option Wide.regs :=
  do_while (avx2_body mem) (fun r => negb (Wide.p r =? end_)%nat)
           fuel (wide_init 8 p).

Definition adler32_avx2_chunk (fuel : nat) (mem : memory) (p end_ : nat)
           (s : Z * Z) : option (Z * Z) :=
  match avx2_loop fuel mem p end_ with
  | None => None
  | Some r =>
      let '(v_s1_a, v_s2_a) :=
        wide_combine _mm256_slli_epi32 5
                     avx2_weights_a avx2_weights_b
                     avx2_weights_c avx2_weights_d r in
      (* Add the counters to the real s1 and s2 *)
      Some (ADLER32_FINISH_VEC_CHUNK_256 s v_s1_a v_s2_a)
  end.

(** *** AVX-512BW *)

Definition avx512bw_body (mem : memory) (r : Wide.regs) : Wide.regs :=
  let pp := Wide.p r in
  let bytes0 := _mm512_cvtepu8_epi32 (load_bytes mem (pp + 16 * 0) 16) in
  let bytes1 := _mm512_cvtepu8_epi32 (load_bytes mem (pp + 16 * 1) 16) in
  let bytes2 := _mm512_cvtepu8_epi32 (load_bytes mem (pp + 16 * 2) 16) in
  let bytes3 := _mm512_cvtepu8_epi32 (load_bytes mem (pp + 16 * 3) 16) in
  wide_accumulate r (Wide.p r + 64) bytes0 bytes1 bytes2 bytes3.

Definition avx512bw_weights_a : vec :=
  [64; 63; 62; 61; 60; 59; 58; 57; 56; 55; 54; 53; 52; 51; 50; 49].
Definition avx512bw_weights_b : vec :=
  [48; 47; 46; 45; 44; 43; 42; 41; 40; 39; 38; 37; 36; 35; 34; 33].
Definition avx512bw_weights_c : vec :=
  [32; 31; 30; 29; 28; 27; 26; 25; 24; 23; 22; 21; 20; 19; 18; 17].
Definition avx512bw_weights_d : vec :=
  [16; 15; 14; 13; 12; 11; 10; 9; 8; 7; 6; 5; 4; 3; 2; 1].

Definition avx512bw_loop (fuel : nat) (mem : memory) (p end_ : nat)
  : option Wide.regs :=
  do_while (avx512bw_body mem) (fun r => negb (Wide.p r =? end_)%nat)
           fuel (wide_init 16 p).

Definition adler32_avx512bw_chunk (fuel : nat) (mem : memory)
           (p end_ : nat) (s : Z * Z) : option (Z * Z) :=
  match avx512bw_loop fuel mem p end_ with
  | None => None
  | Some r =>
      let '(v_s1_a, v_s2_a) :=
        wide_combine _mm512_slli_epi32 5
                     avx512bw_weights_a avx512bw_weights_b
                     avx512bw_weights_c avx512bw_weights_d r in
      (* Add the counters to the real s1 and s2 *)
      Some (ADLER32_FINISH_VEC_CHUNK_512 s v_s1_a v_s2_a)
  end.

(** The chunk function of each kernel. *)
Definition chunk_func (K : kernel)
  : nat -> memory -> nat -> nat -> Z * Z -> option (Z * Z) :=
  match K with
  | SSE2 => adler32_sse2_chunk
  | AVX2 => adler32_avx2_chunk
  | AVX512BW => adler32_avx512bw_chunk
  end.

(** The weights of each kernel, the four groups in processing order. *)
Definition kernel_weights (K : kernel) : vec :=
  match K with
  | SSE2 => sse2_weights_a ++ sse2_weights_b ++
            sse2_weights_c ++ sse2_weights_d
  | AVX2 => avx2_weights_a ++ avx2_weights_b ++
            avx2_weights_c ++ avx2_weights_d
  | AVX512BW => avx512bw_weights_a ++ avx512bw_weights_b ++
                avx512bw_weights_c ++ avx512bw_weights_d
  end.

(** ** Reference sums *)

(** [sumZ f n] is [f 0 + ... + f (n-1)]. *)
Fixpoint sumZ (f : nat -> Z) (n : nat) : Z :=
  match n with
  | O => 0
  | Datatypes.S n' => sumZ f n' + f n'
  end.

(** Byte [j] of the chunk that starts at [p]. *)
Definition chunk_byte (mem : memory) (p : nat) (j : nat) : Z :=
  u8 (mem (p + j)%nat).

(** The counters that sequential scalar processing of the [n] bytes of
    a chunk leaves, written as the specification words them: s1 gains the sum of
    the bytes, s2 gains [(n - j)] times the byte at position [j]; no
    reduction modulo 65521, only the wrap-around of the 32-bit
    counters. *)
Definition scalar_s1_gain (B : nat -> Z) (n : nat) : Z := sumZ B n.
Definition scalar_s2_gain (B : nat -> Z) (n : nat) : Z :=
  sumZ (fun j => (Z.of_nat n - Z.of_nat j) * B j) n.

Definition scalar_chunk (mem : memory) (p n : nat) (s : Z * Z) : Z * Z :=
  (u32 (fst s + scalar_s1_gain (chunk_byte mem p) n),
   u32 (snd s + scalar_s2_gain (chunk_byte mem p) n)).

(** Column sums of a chunk cut into segments of [N] bytes: after [k]
    segments, [col_sum B N k o] is the sum of the bytes at offset [o] of
    each segment, and [col_presum B N k o] is the sum of the values that
    [col_sum] took before each of the [k] segments.  They are what one
    lane of a byte-sum accumulator and of an s2 accumulator hold. *)
Definition col_sum (B : nat -> Z) (N k o : nat) : Z :=
  sumZ (fun t => B (N * t + o)%nat) k.
Definition col_presum (B : nat -> Z) (N k o : nat) : Z :=
  sumZ (fun t => col_sum B N t o) k.

(** A vector of 32-bit (16-bit) lanes given lane by lane. *)
Definition lanes32 (F : nat -> Z) (L : nat) : vec :=
  map (fun i => u32 (F i)) (seq 0 L).
Definition lanes16 (F : nat -> Z) (L : nat) : vec :=
  map (fun i => u16 (F i)) (seq 0 L).

(** The factor that byte [j] of a chunk of [k] segments of [N] bytes
    gets in s2 when the inter-segment accumulator is scaled by [c] and
    the weights within a segment descend from [N] to 1. *)
Definition seg_weight (c : Z) (N k j : nat) : Z :=
  c * (Z.of_nat k - 1 - Z.of_nat (j / N)) + (Z.of_nat N - Z.of_nat (j mod N)).

(** What each kernel adds to s1 and to s2 for the chunk [B] of [k]
    segments (see [chunk_func_gain]). *)
Definition kernel_s1_gain (K : kernel) (B : nat -> Z) (k : nat) : Z :=
  match K with
  | SSE2 => sumZ B (32 * k)
  | AVX2 => sumZ (fun h => B (2 * h)%nat) (16 * k)
  | AVX512BW => sumZ (fun h => B (2 * h)%nat) (32 * k)
  end.
Definition kernel_s2_gain (K : kernel) (B : nat -> Z) (k : nat) : Z :=
  match K with
  | SSE2 => sumZ (fun j => seg_weight 32 32 k j * B j) (32 * k)
  | AVX2 => sumZ (fun j => seg_weight 32 32 k j * B j) (32 * k)
  | AVX512BW => sumZ (fun j => seg_weight 32 64 k j * B j) (64 * k)
  end.

(** ** The dispatcher *)

Inductive adler32_func_t := adler32_sse2 | adler32_avx2 | adler32_avx512bw.

(** Which of the [DISPATCH_*] macros the build defines. *)
Record dispatch_config := {
  DISPATCH_AVX512BW : bool;
  DISPATCH_AVX2 : bool;
  DISPATCH_SSE2 : bool
}.

(** The feature masks of cpu_features.h, taken as parameters. *)
Record feature_masks := {
  X86_CPU_FEATURE_SSE2 : Z;
  X86_CPU_FEATURE_AVX2 : Z;
  X86_CPU_FEATURE_AVX512BW : Z
}.

(** The C truth value of [features & mask]. *)
Definition has_feature (features mask : Z) : bool :=
  negb (Z.land features mask =? 0).

(** [arch_select_adler32_func], as a function of the bitset that
    [get_cpu_features()] returns; [None] is [NULL]. *)
Definition arch_select_adler32_func (cfg : dispatch_config)
           (masks : feature_masks) (get_cpu_features : Z)
  : option adler32_func_t :=
  let features := get_cpu_features in
  if DISPATCH_AVX512BW cfg &&
     has_feature features (X86_CPU_FEATURE_AVX512BW masks)
  then Some adler32_avx512bw
  else if DISPATCH_AVX2 cfg &&
          has_feature features (X86_CPU_FEATURE_AVX2 masks)
  then Some adler32_avx2
  else if DISPATCH_SSE2 cfg &&
          has_feature features (X86_CPU_FEATURE_SSE2 masks)
  then Some adler32_sse2
  else None.

Definition compiled_in (cfg : dispatch_config) (f : adler32_func_t) : bool :=
  match f with
  | adler32_sse2 => DISPATCH_SSE2 cfg
  | adler32_avx2 => DISPATCH_AVX2 cfg
  | adler32_avx512bw => DISPATCH_AVX512BW cfg
  end.

Definition feature_mask (masks : feature_masks) (f : adler32_func_t) : Z :=
  match f with
  | adler32_sse2 => X86_CPU_FEATURE_SSE2 masks
  | adler32_avx2 => X86_CPU_FEATURE_AVX2 masks
  | adler32_avx512bw => X86_CPU_FEATURE_AVX512BW masks
  end.

(** A kernel is eligible when its extension is compiled in and reported
    present. *)
Definition eligible (cfg : dispatch_config) (masks : feature_masks)
           (features : Z) (f : adler32_func_t) : bool :=
  compiled_in cfg f && has_feature features (feature_mask masks f).

(** Vector width in bytes: the order of capability. *)
Definition vector_width (f : adler32_func_t) : nat :=
  match f with
  | adler32_sse2 => 16
  | adler32_avx2 => 32
  | adler32_avx512bw => 64
  end.

(** ** Auxiliary descriptions used in the statements *)

(** The lanes of even index. *)
Fixpoint even_lanes (v : vec) : vec :=
  match v with
  | x :: _ :: v' => x :: even_lanes v'
  | _ => v
  end.

(** The registers of the AVX2 ([L = 8]) and AVX-512BW ([L = 16]) loops
    after [k] segments of the chunk [B] that starts at [p0]: each lane
    holds a column sum. *)
Definition wide_state (B : nat -> Z) (L p0 k : nat) : Wide.regs :=
  let N := (4 * L)%nat in
  {| Wide.p := (p0 + N * k)%nat;
     Wide.v_s1_a := lanes32 (fun i => col_sum B N k i) L;
     Wide.v_s1_b := lanes32 (fun i => col_sum B N k (L + i)) L;
     Wide.v_s1_c := lanes32 (fun i => col_sum B N k (2 * L + i)) L;
     Wide.v_s1_d := lanes32 (fun i => col_sum B N k (3 * L + i)) L;
     Wide.v_s2_a := lanes32 (fun i => col_presum B N k i) L;
     Wide.v_s2_b := lanes32 (fun i => col_presum B N k (L + i)) L;
     Wide.v_s2_c := lanes32 (fun i => col_presum B N k (2 * L + i)) L;
     Wide.v_s2_d := lanes32 (fun i => col_presum B N k (3 * L + i)) L |}.

(** The registers of the SSE2 loop after [k] segments: the 16-bit lanes
    hold column sums, the even lanes of [v_s1] and [v_s2] hold the sums
    of the columns that [_mm_sad_epu8] adds up, the odd lanes are 0. *)
Definition sad_cols (F : nat -> Z) (half : nat) : Z :=
  sumZ (fun i => F (8 * half + i)%nat + F (16 + 8 * half + i)%nat) 8.

Definition sse2_state (B : nat -> Z) (p0 k : nat) : Sse2.regs :=
  {| Sse2.p := (p0 + 32 * k)%nat;
     Sse2.v_s1 := [u32 (sad_cols (col_sum B 32 k) 0); 0;
                   u32 (sad_cols (col_sum B 32 k) 1); 0];
     Sse2.v_s2 := [u32 (sad_cols (col_presum B 32 k) 0); 0;
                   u32 (sad_cols (col_presum B 32 k) 1); 0];
     Sse2.v_byte_sums_a := lanes16 (fun i => col_sum B 32 k i) 8;
     Sse2.v_byte_sums_b := lanes16 (fun i => col_sum B 32 k (8 + i)) 8;
     Sse2.v_byte_sums_c := lanes16 (fun i => col_sum B 32 k (16 + i)) 8;
     Sse2.v_byte_sums_d := lanes16 (fun i => col_sum B 32 k (24 + i)) 8 |}.

(** Equality of two integers as 32-bit patterns. *)
Definition eq32 (a b : Z) : Prop := u32 a = u32 b.

(** The weights [n], [n-1], ..., 1. *)
Definition descending (n : nat) : vec := map Z.of_nat (rev (seq 1 n)).

(** The thirty-two 16-bit byte-sum counters of the SSE2 kernel. *)
Definition sse2_byte_sums (r : Sse2.regs) : vec :=
  Sse2.v_byte_sums_a r ++ Sse2.v_byte_sums_b r ++
  Sse2.v_byte_sums_c r ++ Sse2.v_byte_sums_d r.

(** The range of a signed 32-bit integer. *)
Definition fits_s32 (x : Z) : Prop := - 2 ^ 31 <= x < 2 ^ 31.

(** ** Conditional compilation

    The three kernels sit in [#if] blocks that read and write the
    macros [DEFAULT_IMPL], [DISPATCH] and [DISPATCH_*].  A macro that is
    tested with [defined] or used as a truth value is a [bool];
    [DEFAULT_IMPL] is the function it names, if any.  The included
    template is taken to leave these macros alone. *)

(** What the compiler and its flags define before the file is read. *)
Record build_env := {
  defined_AVX512BW : bool;     (* defined(__AVX512BW__) *)
  defined_AVX2 : bool;         (* defined(__AVX2__) *)
  defined_SSE2 : bool;         (* defined(__SSE2__) *)
  X86_CPU_FEATURES_ENABLED : bool;
  COMPILER_SUPPORTS_AVX512BW_TARGET_INTRINSICS : bool;
  COMPILER_SUPPORTS_AVX2_TARGET_INTRINSICS : bool;
  COMPILER_SUPPORTS_SSE2_TARGET_INTRINSICS : bool
}.

(** The macros that the blocks read and write, and the functions
    defined so far (the latest first). *)
Record macros := {
  DEFAULT_IMPL : option adler32_func_t;
  DISPATCH : bool;
  dispatch_macros : dispatch_config;
  defined_funcs : list adler32_func_t
}.

Definition isa_defined (env : build_env) (f : adler32_func_t) : bool :=
  match f with
  | adler32_sse2 => defined_SSE2 env
  | adler32_avx2 => defined_AVX2 env
  | adler32_avx512bw => defined_AVX512BW env
  end.

Definition target_intrinsics (env : build_env) (f : adler32_func_t) : bool :=
  match f with
  | adler32_sse2 => COMPILER_SUPPORTS_SSE2_TARGET_INTRINSICS env
  | adler32_avx2 => COMPILER_SUPPORTS_AVX2_TARGET_INTRINSICS env
  | adler32_avx512bw => COMPILER_SUPPORTS_AVX512BW_TARGET_INTRINSICS env
  end.

(** [#undef DISPATCH_f] and [#define DISPATCH_f 1]. *)
Definition set_dispatch (f : adler32_func_t) (v : bool)
           (cfg : dispatch_config) : dispatch_config :=
  match f with
  | adler32_sse2 =>
      {| DISPATCH_AVX512BW := DISPATCH_AVX512BW cfg;
         DISPATCH_AVX2 := DISPATCH_AVX2 cfg;
         DISPATCH_SSE2 := v |}
  | adler32_avx2 =>
      {| DISPATCH_AVX512BW := DISPATCH_AVX512BW cfg;
         DISPATCH_AVX2 := v;
         DISPATCH_SSE2 := DISPATCH_SSE2 cfg |}
  | adler32_avx512bw =>
      {| DISPATCH_AVX512BW := v;
         DISPATCH_AVX2 := DISPATCH_AVX2 cfg;
         DISPATCH_SSE2 := DISPATCH_SSE2 cfg |}
  end.

(** The block of kernel [f]:
    [#undef DISPATCH_f],
    [#if !defined(DEFAULT_IMPL) && (defined(__f__) ||
         (X86_CPU_FEATURES_ENABLED && COMPILER_SUPPORTS_f_TARGET_INTRINSICS))],
    inside which the function is defined, and either [DEFAULT_IMPL]
    (under [#ifdef __f__]) or [DISPATCH] and [DISPATCH_f]. *)
Definition impl_block (env : build_env) (f : adler32_func_t) (m : macros)
  : macros :=
  let cfg := set_dispatch f false (dispatch_macros m) in
  if match DEFAULT_IMPL m with Some _ => false | None => true end &&
     (isa_defined env f ||
      (X86_CPU_FEATURES_ENABLED env && target_intrinsics env f))
  then
    if isa_defined env f
    then {| DEFAULT_IMPL := Some f;
            DISPATCH := DISPATCH m;
            dispatch_macros := cfg;
            defined_funcs := f :: defined_funcs m |}
    else {| DEFAULT_IMPL := DEFAULT_IMPL m;
            DISPATCH := true;
            dispatch_macros := set_dispatch f true cfg;
            defined_funcs := f :: defined_funcs m |}
  else {| DEFAULT_IMPL := DEFAULT_IMPL m;
          DISPATCH := DISPATCH m;
          dispatch_macros := cfg;
          defined_funcs := defined_funcs m |}.

(** The file, top to bottom: the AVX-512BW block, the AVX2 block, the
    SSE2 block.  [arch_select_adler32_func] is defined under
    [#ifdef DISPATCH]. *)
Definition adler32_impl_h (env : build_env) (m : macros) : macros :=
  impl_block env adler32_sse2
    (impl_block env adler32_avx2
       (impl_block env adler32_avx512bw m)).

(** Nothing defined yet. *)
Definition no_macros : macros :=
  {| DEFAULT_IMPL := None;
     DISPATCH := false;
     dispatch_macros := {| DISPATCH_AVX512BW := false;
                           DISPATCH_AVX2 := false;
                           DISPATCH_SSE2 := false |};
     defined_funcs := [] |}.

(** The vector width of what the dispatcher returns, 0 for [NULL]. *)
Definition selected_width (r : option adler32_func_t) : nat :=
  match r with
  | Some f => vector_width f
  | None => 0
  end.

(** ** Loads against the bounds of the buffer

    The bytes at addresses [lo] up to [hi - 1] are the ones that may be
    read.  A pass of a loop whose loads stay inside runs as before; a
    pass with a load that reaches outside is a fault. *)

Inductive outcome (A : Type) : Type :=
| Done (a : A)
| Fault
| OutOfFuel.

Arguments Done {A} a.
Arguments Fault {A}.
Arguments OutOfFuel {A}.

(** A load of [n] bytes at [addr]. *)
Definition readable (lo hi addr n : nat) : bool :=
  (lo <=? addr)%nat && (addr + n <=? hi)%nat.

Fixpoint do_while_checked {St : Type} (loads_ok : St -> bool)
         (body : St -> St) (cond : St -> bool)
         (fuel : nat) (s : St) : outcome St :=
  match fuel with
  | O => OutOfFuel
  | S fuel' =>
      if loads_ok s
      then let s' := body s in
           if cond s' then do_while_checked loads_ok body cond fuel' s'
           else Done s'
      else Fault
  end.

(** The loads of one pass of each loop: [*p++] twice in the SSE2 loop,
    [_mm_loadu_si128] at [p + 0], [p + 8], [p + 16] and [p + 24] in the
    AVX2 loop, [pp[0]] to [pp[3]] in the AVX-512BW loop; sixteen bytes
    each. *)
Definition sse2_loads_ok (lo hi : nat) (r : Sse2.regs) : bool :=
  readable lo hi (Sse2.p r) 16 && readable lo hi (Sse2.p r + 16) 16.

Definition avx2_loads_ok (lo hi : nat) (r : Wide.regs) : bool :=
  readable lo hi (Wide.p r + 0) 16 && readable lo hi (Wide.p r + 8) 16 &&
  readable lo hi (Wide.p r + 16) 16 && readable lo hi (Wide.p r + 24) 16.

Definition avx512bw_loads_ok (lo hi : nat) (r : Wide.regs) : bool :=
  readable lo hi (Wide.p r + 16 * 0) 16 &&
  readable lo hi (Wide.p r + 16 * 1) 16 &&
  readable lo hi (Wide.p r + 16 * 2) 16 &&
  readable lo hi (Wide.p r + 16 * 3) 16.

Definition sse2_loop_checked (lo hi fuel : nat) (mem : memory)
           (p end_ : nat) : outcome Sse2.regs :=
  do_while_checked (sse2_loads_ok lo hi) (sse2_body mem)
                   (fun r => negb (Sse2.p r =? end_)%nat)
                   fuel (sse2_init p).

Definition avx2_loop_checked (lo hi fuel : nat) (mem : memory)
           (p end_ : nat) : outcome Wide.regs :=
  do_while_checked (avx2_loads_ok lo hi) (avx2_body mem)
                   (fun r => negb (Wide.p r =? end_)%nat)
                   fuel (wide_init 8 p).

Definition avx512bw_loop_checked (lo hi fuel : nat) (mem : memory)
           (p end_ : nat) : outcome Wide.regs :=
  do_while_checked (avx512bw_loads_ok lo hi) (avx512bw_body mem)
                   (fun r => negb (Wide.p r =? end_)%nat)
                   fuel (wide_init 16 p).

(** * Proofs *)

(** ** 32-bit and 16-bit arithmetic *)

Lemma u32_range x : 0 <= u32 x < 2 ^ 32.
Proof. unfold u32. apply Z.mod_pos_bound. lia. Qed.

Lemma u32_small x : 0 <= x < 2 ^ 32 -> u32 x = x.
Proof. intros. unfold u32. apply Z.mod_small. lia. Qed.

Lemma u32_idem x : u32 (u32 x) = u32 x.
Proof. unfold u32. apply Z.mod_mod. lia. Qed.

Lemma u32_add_l a b : u32 (u32 a + b) = u32 (a + b).
Proof. unfold u32. apply Zplus_mod_idemp_l. Qed.

Lemma u32_add_r a b : u32 (a + u32 b) = u32 (a + b).
Proof. unfold u32. apply Zplus_mod_idemp_r. Qed.

Lemma u32_mul_l a b : u32 (u32 a * b) = u32 (a * b).
Proof. unfold u32. apply Zmult_mod_idemp_l. Qed.

Lemma u32_mul_r a b : u32 (a * u32 b) = u32 (a * b).
Proof. unfold u32. apply Zmult_mod_idemp_r. Qed.

Lemma u32_shiftl a c : 0 <= c -> u32 (Z.shiftl (u32 a) c) = u32 (a * 2 ^ c).
Proof.
  intros. rewrite Z.shiftl_mul_pow2 by lia. apply u32_mul_l.
Qed.

Lemma u16_small x : 0 <= x < 2 ^ 16 -> u16 x = x.
Proof. intros. unfold u16. apply Z.mod_small. lia. Qed.

Lemma u16_add_l a b : u16 (u16 a + b) = u16 (a + b).
Proof. unfold u16. apply Zplus_mod_idemp_l. Qed.

Lemma s16_small x : 0 <= x < 2 ^ 15 -> s16 x = x.
Proof.
  intros. unfold s16. rewrite u16_small by lia.
  destruct (Z.ltb_spec x (2 ^ 15)); lia.
Qed.

Lemma u8_range b : 0 <= u8 b <= 255.
Proof.
  unfold u8. pose proof (Byte.to_N_bounded b). lia.
Qed.

Lemma chunk_byte_range mem p j : 0 <= chunk_byte mem p j <= 255.
Proof. apply u8_range. Qed.

Lemma eq32_strip_u32 a b : eq32 a b -> eq32 (u32 a) b.
Proof. unfold eq32. intros <-. apply u32_idem. Qed.

Lemma eq32_strip_add a a' b b' :
  eq32 a a' -> eq32 b b' -> eq32 (a + b) (a' + b').
Proof.
  unfold eq32. intros Ha Hb.
  rewrite <- u32_add_l, <- u32_add_r, Ha, Hb, u32_add_l, u32_add_r.
  reflexivity.
Qed.

Lemma eq32_strip_mul a a' b b' :
  eq32 a a' -> eq32 b b' -> eq32 (a * b) (a' * b').
Proof.
  unfold eq32. intros Ha Hb.
  rewrite <- u32_mul_l, <- u32_mul_r, Ha, Hb, u32_mul_l, u32_mul_r.
  reflexivity.
Qed.

Lemma eq32_refl a : eq32 a a.
Proof. reflexivity. Qed.

Lemma eq32_join a a' b b' : eq32 a a' -> eq32 b b' -> a' = b' -> u32 a = u32 b.
Proof. unfold eq32. intros -> -> ->. reflexivity. Qed.

(** Drops the wrap-arounds inside a sum of products. *)
Ltac eq32_strip :=
  lazymatch goal with
  | |- eq32 (u32 _) _ => apply eq32_strip_u32; eq32_strip
  | |- eq32 (_ + _) _ => apply eq32_strip_add; eq32_strip
  | |- eq32 (_ * _) _ => apply eq32_strip_mul; eq32_strip
  | |- eq32 _ _ => apply eq32_refl
  end.

(** Proves [u32 e1 = u32 e2] when the two sides agree once the inner
    wrap-arounds are dropped. *)
Ltac u32_eq :=
  eapply eq32_join; [eq32_strip | eq32_strip | try ring].

(** ** Finite sums *)

Lemma sumZ_ext f g n :
  (forall i, (i < n)%nat -> f i = g i) -> sumZ f n = sumZ g n.
Proof.
  induction n as [|n IH]; intros H; simpl; [reflexivity|].
  rewrite IH by (intros; apply H; lia). rewrite H by lia. reflexivity.
Qed.

Lemma sumZ_add f g n :
  sumZ (fun i => f i + g i) n = sumZ f n + sumZ g n.
Proof. induction n as [|n IH]; simpl; lia. Qed.

Lemma sumZ_scale c f n : sumZ (fun i => c * f i) n = c * sumZ f n.
Proof. induction n as [|n IH]; simpl; lia. Qed.

Lemma sumZ_zero n : sumZ (fun _ => 0) n = 0.
Proof. induction n as [|n IH]; simpl; lia. Qed.

Lemma sumZ_split f n m :
  sumZ f (n + m) = sumZ f n + sumZ (fun i => f (n + i)%nat) m.
Proof.
  induction m as [|m IH].
  - rewrite Nat.add_0_r. simpl. lia.
  - rewrite Nat.add_succ_r. simpl. rewrite IH. lia.
Qed.

Lemma sumZ_bounds f n lo hi :
  (forall i, (i < n)%nat -> lo <= f i <= hi) ->
  Z.of_nat n * lo <= sumZ f n <= Z.of_nat n * hi.
Proof.
  induction n as [|n IH]; intros H.
  - simpl. lia.
  - cbn [sumZ]. specialize (IH (fun i Hi => H i (Nat.lt_lt_succ_r _ _ Hi))).
    specialize (H n (Nat.lt_succ_diag_r n)). lia.
Qed.

(** Exchange of two finite sums. *)
Lemma sumZ_swap (f : nat -> nat -> Z) n m :
  sumZ (fun i => sumZ (fun j => f i j) m) n =
  sumZ (fun j => sumZ (fun i => f i j) n) m.
Proof.
  induction n as [|n IH]; simpl.
  - symmetry. apply sumZ_zero.
  - rewrite IH. symmetry. apply sumZ_add.
Qed.

(** A sum over [N * k] indices, segment by segment. *)
Lemma sumZ_segments f N k :
  sumZ f (N * k) = sumZ (fun t => sumZ (fun o => f (N * t + o)%nat) N) k.
Proof.
  induction k as [|k IH].
  - rewrite Nat.mul_0_r. reflexivity.
  - rewrite Nat.mul_succ_r, sumZ_split, IH. reflexivity.
Qed.

(** The column sums add up to the sum of the chunk. *)
Lemma col_sum_total B N k :
  sumZ (col_sum B N k) N = sumZ B (N * k).
Proof.
  unfold col_sum. rewrite sumZ_segments.
  apply (sumZ_swap (fun o t => B (N * t + o)%nat)).
Qed.

Lemma col_sum_succ B N k o :
  col_sum B N (S k) o = col_sum B N k o + B (N * k + o)%nat.
Proof. reflexivity. Qed.

Lemma col_presum_succ B N k o :
  col_presum B N (S k) o = col_presum B N k o + col_sum B N k o.
Proof. reflexivity. Qed.

Lemma col_sum_bounds B N k o hi :
  (forall j, 0 <= B j <= hi) ->
  0 <= col_sum B N k o <= Z.of_nat k * hi.
Proof.
  intros H. unfold col_sum.
  pose proof (sumZ_bounds (fun t => B (N * t + o)%nat) k 0 hi
                (fun i _ => H _)).
  lia.
Qed.

Lemma seg_weight_succ c N k j :
  seg_weight c N (S k) j = seg_weight c N k j + c.
Proof. unfold seg_weight. lia. Qed.

Lemma seg_weight_last c N k o :
  (o < N)%nat ->
  seg_weight c N (S k) (N * k + o) = Z.of_nat N - Z.of_nat o.
Proof.
  intros Ho. unfold seg_weight.
  replace ((N * k + o) / N)%nat with k.
  2:{ rewrite Nat.mul_comm, Nat.div_add_l by lia.
      rewrite Nat.div_small by lia. lia. }
  replace ((N * k + o) mod N)%nat with o.
  2:{ rewrite Nat.add_comm, Nat.mul_comm, Nat.Div0.mod_add.
      rewrite Nat.mod_small by lia. reflexivity. }
  lia.
Qed.

(** With the scaling factor equal to the segment size, byte [j] of an
    [n]-byte chunk gets the factor [n - j]. *)
Lemma seg_weight_exact N k j :
  seg_weight (Z.of_nat N) N k j = Z.of_nat (N * k) - Z.of_nat j.
Proof.
  unfold seg_weight.
  destruct (Nat.eq_dec N 0) as [->|HN].
  - simpl. lia.
  - pose proof (Nat.div_mod_eq j N) as E.
    assert (Z.of_nat j = Z.of_nat N * Z.of_nat (j / N) + Z.of_nat (j mod N))
      by lia.
    lia.
Qed.
(** The weighted total of the lanes is the weighted sum of the bytes. *)
Lemma weighted_columns B c N k :
  sumZ (fun o => c * col_presum B N k o
                 + (Z.of_nat N - Z.of_nat o) * col_sum B N k o) N
  = sumZ (fun j => seg_weight c N k j * B j) (N * k).
Proof.
  induction k as [|k IH].
  - rewrite Nat.mul_0_r. cbn [sumZ].
    transitivity (sumZ (fun _ => 0) N); [|apply sumZ_zero].
    apply sumZ_ext. intros. unfold col_presum, col_sum. simpl. lia.
  - rewrite Nat.mul_succ_r, sumZ_split.
    rewrite (sumZ_ext (fun j => seg_weight c N (S k) j * B j)
                      (fun j => seg_weight c N k j * B j + c * B j));
      [|intros; rewrite seg_weight_succ; ring].
    rewrite (sumZ_add (fun j => seg_weight c N k j * B j) (fun j => c * B j)).
    rewrite <- IH, sumZ_scale, <- col_sum_total.
    rewrite <- sumZ_scale, <- !sumZ_add.
    apply sumZ_ext. intros o Ho.
    rewrite seg_weight_last by assumption.
    rewrite col_presum_succ, col_sum_succ. ring.
Qed.

(** ** Vectors given lane by lane *)

Lemma map2_map f (g h : nat -> Z) l :
  map2 f (map g l) (map h l) = map (fun i => f (g i) (h i)) l.
Proof. induction l as [|x l IH]; simpl; [reflexivity|]. now rewrite IH. Qed.

Lemma lanes32_ext F G L :
  (forall i, (i < L)%nat -> u32 (F i) = u32 (G i)) -> lanes32 F L = lanes32 G L.
Proof.
  intros H. unfold lanes32. apply map_ext_in. intros i Hi.
  apply in_seq in Hi. apply H. lia.
Qed.

Lemma zeroes_lanes32 L : zeroes L = lanes32 (fun _ => 0) L.
Proof.
  unfold zeroes, lanes32. generalize 0%nat.
  induction L as [|L IH]; intros s; simpl; [reflexivity|].
  now rewrite <- IH.
Qed.

Lemma vadd32_lanes F G L :
  vadd32 (lanes32 F L) (lanes32 G L) = lanes32 (fun i => F i + G i) L.
Proof.
  unfold vadd32, lanes32. rewrite map2_map. apply map_ext. intros i.
  now rewrite u32_add_l, u32_add_r.
Qed.

Lemma vadd32_lanes_raw F (g : nat -> Z) L :
  vadd32 (lanes32 F L) (map g (seq 0 L)) = lanes32 (fun i => F i + g i) L.
Proof.
  unfold vadd32, lanes32. rewrite map2_map. apply map_ext. intros i.
  now rewrite u32_add_l.
Qed.

Lemma vmul32_lanes_raw F (w : nat -> Z) L :
  vmul32 (lanes32 F L) (map w (seq 0 L)) = lanes32 (fun i => F i * w i) L.
Proof.
  unfold vmul32, lanes32. rewrite map2_map. apply map_ext. intros i.
  now rewrite u32_mul_l.
Qed.

Lemma slli_epi32_lanes F L c :
  0 <= c -> slli_epi32 (lanes32 F L) c = lanes32 (fun i => F i * 2 ^ c) L.
Proof.
  intros Hc. unfold slli_epi32, lanes32. rewrite map_map.
  apply map_ext. intros i. rewrite u32_shiftl by lia. reflexivity.
Qed.

Lemma list_sum_map (F : nat -> Z) s L :
  list_sum (map F (seq s L)) = sumZ (fun i => F (s + i)%nat) L.
Proof.
  revert s. induction L as [|L IH]; intros s; [reflexivity|].
  cbn [seq map list_sum sumZ]. rewrite IH.
  change (S L) with (1 + L)%nat.
  replace (sumZ (fun i => F (s + i)%nat) L + F (s + L)%nat)
    with (sumZ (fun i => F (s + i)%nat) (S L)) by reflexivity.
  change (S L) with (1 + L)%nat. rewrite sumZ_split. cbn [sumZ].
  rewrite Nat.add_0_r.
  rewrite (sumZ_ext (fun i => F (S s + i)%nat) (fun i => F (s + (1 + i))%nat)).
  - lia.
  - intros. f_equal. lia.
Qed.

Lemma u32_list_sum_lanes a F L :
  u32 (a + list_sum (lanes32 F L)) = u32 (a + sumZ F L).
Proof.
  unfold lanes32.
  rewrite <- (sumZ_ext (fun i => F (0 + i)%nat) F L) by reflexivity.
  rewrite <- list_sum_map. generalize (seq 0 L). intros l. revert a.
  induction l as [|x l IH]; intros a; [reflexivity|].
  cbn [map list_sum]. rewrite !Z.add_assoc, IH.
  rewrite <- (u32_add_l (a + u32 (F x))), u32_add_r, u32_add_l, <- IH.
  f_equal.
Qed.

(** ** The loop *)

Lemma do_while_iter {St : Type} (body : St -> St) (cond : St -> bool) k :
  forall fuel s,
    (1 <= k)%nat ->
    (forall j, (1 <= j < k)%nat -> cond (Nat.iter j body s) = true) ->
    cond (Nat.iter k body s) = false ->
    do_while body cond fuel s =
      if (k <=? fuel)%nat then Some (Nat.iter k body s) else None.
Proof.
  induction k as [|k IH]; intros fuel s Hk Hrun Hexit; [lia|].
  destruct fuel as [|fuel]; [reflexivity|].
  cbn [do_while]. cbv zeta.
  destruct k as [|k].
  - simpl in Hexit. rewrite Hexit. reflexivity.
  - pose proof (Hrun 1%nat ltac:(lia)) as H1. simpl in H1. rewrite H1.
    rewrite IH.
    + change (S (S k) <=? S fuel)%nat with (S k <=? fuel)%nat.
      rewrite (Nat.iter_succ_r (S k)). reflexivity.
    + lia.
    + intros j Hj. rewrite <- Nat.iter_succ_r. apply Hrun. lia.
    + rewrite <- Nat.iter_succ_r. exact Hexit.
Qed.

Lemma do_while_never {St : Type} (body : St -> St) (cond : St -> bool) :
  forall fuel s,
    (forall j, (1 <= j)%nat -> cond (Nat.iter j body s) = true) ->
    do_while body cond fuel s = None.
Proof.
  induction fuel as [|fuel IH]; intros s Hrun; [reflexivity|].
  cbn [do_while]. cbv zeta.
  pose proof (Hrun 1%nat ltac:(lia)) as H1. simpl in H1. rewrite H1.
  apply IH. intros j Hj. rewrite <- Nat.iter_succ_r. apply Hrun. lia.
Qed.

(** ** The reduction macros *)

Ltac destruct_vec v H :=
  repeat (destruct v as [|? v]; [discriminate H|]);
  destruct v; [|discriminate H]; clear H.

Lemma finish_128_lanes s a0 a1 a2 a3 b0 b1 b2 b3 :
  ADLER32_FINISH_VEC_CHUNK_128 s [a0; a1; a2; a3] [b0; b1; b2; b3] =
  (u32 (fst s + (a0 + a2)), u32 (snd s + (b0 + b1 + b2 + b3))).
Proof.
  unfold ADLER32_FINISH_VEC_CHUNK_128, _mm_cvtsi128_si32, _mm_shuffle_epi32,
    vadd32.
  cbn [map map2 nth fst snd].
  change (Z.to_nat (Z.land (Z.shiftr 49 (2 * 0)) 3)) with 1%nat.
  change (Z.to_nat (Z.land (Z.shiftr 49 (2 * 1)) 3)) with 0%nat.
  change (Z.to_nat (Z.land (Z.shiftr 49 (2 * 2)) 3)) with 3%nat.
  change (Z.to_nat (Z.land (Z.shiftr 49 (2 * 3)) 3)) with 0%nat.
  change (Z.to_nat (Z.land (Z.shiftr 2 (2 * 0)) 3)) with 2%nat.
  cbn [nth].
  f_equal; u32_eq.
Qed.

Lemma finish_128_sum s v1 v2 :
  length v1 = 4%nat -> length v2 = 4%nat ->
  ADLER32_FINISH_VEC_CHUNK_128 s v1 v2 =
  (u32 (fst s + list_sum (even_lanes v1)), u32 (snd s + list_sum v2)).
Proof.
  intros H1 H2. destruct_vec v1 H1. destruct_vec v2 H2.
  rewrite finish_128_lanes. cbn [even_lanes list_sum].
  f_equal; f_equal; lia.
Qed.

Lemma finish_256_sum s v1 v2 :
  length v1 = 8%nat -> length v2 = 8%nat ->
  ADLER32_FINISH_VEC_CHUNK_256 s v1 v2 =
  (u32 (fst s + list_sum (even_lanes v1)), u32 (snd s + list_sum v2)).
Proof.
  intros H1 H2. destruct_vec v1 H1. destruct_vec v2 H2.
  unfold ADLER32_FINISH_VEC_CHUNK_256, _mm256_extracti128_si256, vadd32.
  cbn [Z.eqb firstn skipn map2].
  rewrite finish_128_lanes. cbn [even_lanes list_sum].
  f_equal; u32_eq.
Qed.

Lemma finish_512_sum s v1 v2 :
  length v1 = 16%nat -> length v2 = 16%nat ->
  ADLER32_FINISH_VEC_CHUNK_512 s v1 v2 =
  (u32 (fst s + list_sum (even_lanes v1)), u32 (snd s + list_sum v2)).
Proof.
  intros H1 H2. destruct_vec v1 H1. destruct_vec v2 H2.
  unfold ADLER32_FINISH_VEC_CHUNK_512, _mm512_extracti64x4_epi64, vadd32.
  cbn [Z.eqb firstn skipn map2].
  rewrite finish_256_sum by reflexivity. cbn [even_lanes list_sum].
  f_equal; u32_eq.
Qed.

(** ** The AVX2 and AVX-512BW loops *)

Lemma cvt256_load mem a :
  _mm256_cvtepu8_epi32 (_mm_loadu_si128 mem a) = load_bytes mem a 8.
Proof. reflexivity. Qed.

Lemma cvt512_load mem a :
  _mm512_cvtepu8_epi32 (load_bytes mem a 16) = load_bytes mem a 16.
Proof. reflexivity. Qed.

Lemma accumulate_col32 mem p0 N k L off a :
  a = (p0 + N * k + off)%nat ->
  vadd32 (lanes32 (fun i => col_sum (chunk_byte mem p0) N k (off + i)) L)
         (load_bytes mem a L)
  = lanes32 (fun i => col_sum (chunk_byte mem p0) N (S k) (off + i)) L.
Proof.
  intros ->. unfold load_bytes. rewrite vadd32_lanes_raw.
  apply lanes32_ext. intros i _. rewrite col_sum_succ.
  unfold chunk_byte. do 4 f_equal. lia.
Qed.

Lemma accumulate_presum32 B N k L off :
  vadd32 (lanes32 (fun i => col_presum B N k (off + i)) L)
         (lanes32 (fun i => col_sum B N k (off + i)) L)
  = lanes32 (fun i => col_presum B N (S k) (off + i)) L.
Proof. rewrite vadd32_lanes. reflexivity. Qed.

Lemma wide_accumulate_state mem p0 L k p' :
  p' = (p0 + 4 * L * S k)%nat ->
  wide_accumulate (wide_state (chunk_byte mem p0) L p0 k) p'
    (load_bytes mem (p0 + 4 * L * k + 0) L)
    (load_bytes mem (p0 + 4 * L * k + L) L)
    (load_bytes mem (p0 + 4 * L * k + 2 * L) L)
    (load_bytes mem (p0 + 4 * L * k + 3 * L) L)
  = wide_state (chunk_byte mem p0) L p0 (S k).
Proof.
  intros ->. unfold wide_accumulate, wide_state.
  cbn [Wide.p Wide.v_s1_a Wide.v_s1_b Wide.v_s1_c Wide.v_s1_d
       Wide.v_s2_a Wide.v_s2_b Wide.v_s2_c Wide.v_s2_d].
  f_equal.
  - exact (accumulate_col32 mem p0 (4 * L) k L 0 _ eq_refl).
  - exact (accumulate_col32 mem p0 (4 * L) k L L _ eq_refl).
  - exact (accumulate_col32 mem p0 (4 * L) k L (2 * L) _ eq_refl).
  - exact (accumulate_col32 mem p0 (4 * L) k L (3 * L) _ eq_refl).
  - exact (accumulate_presum32 _ (4 * L) k L 0).
  - exact (accumulate_presum32 _ (4 * L) k L L).
  - exact (accumulate_presum32 _ (4 * L) k L (2 * L)).
  - exact (accumulate_presum32 _ (4 * L) k L (3 * L)).
Qed.

Lemma wide_init_state B L p0 : wide_init L p0 = wide_state B L p0 0.
Proof.
  unfold wide_init, wide_state. rewrite zeroes_lanes32.
  f_equal. lia.
Qed.

Lemma avx2_iter mem p0 k :
  Nat.iter k (avx2_body mem) (wide_init 8 p0)
  = wide_state (chunk_byte mem p0) 8 p0 k.
Proof.
  induction k as [|k IH].
  - apply wide_init_state.
  - cbn [Nat.iter nat_rect]. fold (Nat.iter k (avx2_body mem) (wide_init 8 p0)).
    rewrite IH. unfold avx2_body. rewrite !cvt256_load.
    rewrite <- (wide_accumulate_state mem p0 8 k _ eq_refl).
    unfold wide_state at 1 2 3 4 5. cbn [Wide.p].
    f_equal; lia.
Qed.

Lemma avx512bw_iter mem p0 k :
  Nat.iter k (avx512bw_body mem) (wide_init 16 p0)
  = wide_state (chunk_byte mem p0) 16 p0 k.
Proof.
  induction k as [|k IH].
  - apply wide_init_state.
  - cbn [Nat.iter nat_rect].
    fold (Nat.iter k (avx512bw_body mem) (wide_init 16 p0)).
    rewrite IH. unfold avx512bw_body. rewrite !cvt512_load.
    rewrite <- (wide_accumulate_state mem p0 16 k _ eq_refl).
    unfold wide_state at 1 2 3 4 5 6. cbn [Wide.p].
    f_equal; lia.
Qed.

(** A loop that advances its pointer by [N] bytes per pass and leaves on
    equality with [end_] makes exactly [k] passes when [end_] is [k]
    steps ahead, and never leaves when [end_] is not on its way. *)
Lemma loop_exact {St : Type} (body : St -> St) (getp : St -> nat)
      s p0 N k fuel :
  (0 < N)%nat -> (1 <= k)%nat ->
  (forall j, getp (Nat.iter j body s) = (p0 + N * j)%nat) ->
  do_while body (fun r => negb (getp r =? p0 + N * k)%nat) fuel s
  = if (k <=? fuel)%nat then Some (Nat.iter k body s) else None.
Proof.
  intros HN Hk Hp. apply do_while_iter.
  - exact Hk.
  - intros j Hj. rewrite Hp. apply negb_true_iff, Nat.eqb_neq. nia.
  - rewrite Hp. apply negb_false_iff, Nat.eqb_eq. reflexivity.
Qed.

Lemma loop_never {St : Type} (body : St -> St) (getp : St -> nat)
      s p0 N end_ fuel :
  (forall j, getp (Nat.iter j body s) = (p0 + N * j)%nat) ->
  (forall j, (1 <= j)%nat -> end_ <> (p0 + N * j)%nat) ->
  do_while body (fun r => negb (getp r =? end_)%nat) fuel s = None.
Proof.
  intros Hp Hne. apply do_while_never.
  intros j Hj. rewrite Hp. apply negb_true_iff, Nat.eqb_neq.
  intros E. apply (Hne j Hj). now symmetry.
Qed.

Lemma avx2_loop_exact mem p k fuel :
  (1 <= k)%nat ->
  avx2_loop fuel mem p (p + 32 * k)
  = if (k <=? fuel)%nat
    then Some (wide_state (chunk_byte mem p) 8 p k) else None.
Proof.
  intros Hk. unfold avx2_loop.
  rewrite (loop_exact (avx2_body mem) Wide.p _ p 32 k fuel); try lia.
  - now rewrite avx2_iter.
  - intros j. now rewrite avx2_iter.
Qed.

Lemma avx512bw_loop_exact mem p k fuel :
  (1 <= k)%nat ->
  avx512bw_loop fuel mem p (p + 64 * k)
  = if (k <=? fuel)%nat
    then Some (wide_state (chunk_byte mem p) 16 p k) else None.
Proof.
  intros Hk. unfold avx512bw_loop.
  rewrite (loop_exact (avx512bw_body mem) Wide.p _ p 64 k fuel); try lia.
  - now rewrite avx512bw_iter.
  - intros j. now rewrite avx512bw_iter.
Qed.

(** ** After the loop *)

Lemma sumZ_four H L :
  sumZ H (4 * L)
  = sumZ (fun i => H i + H (L + i)%nat + H (2 * L + i)%nat
                   + H (3 * L + i)%nat) L.
Proof.
  replace (4 * L)%nat with (L + L + L + L)%nat by lia.
  rewrite !sumZ_split, !sumZ_add.
  rewrite (sumZ_ext (fun i => H (L + L + i)%nat) (fun i => H (2 * L + i)%nat))
    by (intros; f_equal; lia).
  rewrite (sumZ_ext (fun i => H (L + L + L + i)%nat)
                    (fun i => H (3 * L + i)%nat))
    by (intros; f_equal; lia).
  reflexivity.
Qed.

Lemma wide_combine_state B L p0 k c w_a w_b w_c w_d :
  0 <= c ->
  w_a = map (fun i => Z.of_nat (4 * L) - Z.of_nat i) (seq 0 L) ->
  w_b = map (fun i => Z.of_nat (4 * L) - Z.of_nat (L + i)) (seq 0 L) ->
  w_c = map (fun i => Z.of_nat (4 * L) - Z.of_nat (2 * L + i)) (seq 0 L) ->
  w_d = map (fun i => Z.of_nat (4 * L) - Z.of_nat (3 * L + i)) (seq 0 L) ->
  let C := col_sum B (4 * L) k in
  let H := fun o => 2 ^ c * col_presum B (4 * L) k o
                    + (Z.of_nat (4 * L) - Z.of_nat o) * C o in
  wide_combine slli_epi32 c w_a w_b w_c w_d (wide_state B L p0 k)
  = (lanes32 (fun i => C i + C (L + i)%nat + C (2 * L + i)%nat
                       + C (3 * L + i)%nat) L,
     lanes32 (fun i => H i + H (L + i)%nat + H (2 * L + i)%nat
                       + H (3 * L + i)%nat) L).
Proof.
  intros Hc -> -> -> -> C H. unfold wide_combine, wide_state.
  cbn [Wide.p Wide.v_s1_a Wide.v_s1_b Wide.v_s1_c Wide.v_s1_d
       Wide.v_s2_a Wide.v_s2_b Wide.v_s2_c Wide.v_s2_d].
  repeat (rewrite vadd32_lanes || (rewrite slli_epi32_lanes by exact Hc)
          || rewrite vmul32_lanes_raw).
  f_equal; apply lanes32_ext; intros i _; f_equal; unfold H, C; ring.
Qed.

Lemma length_lanes32 F L : length (lanes32 F L) = L.
Proof. unfold lanes32. now rewrite length_map, length_seq. Qed.

Lemma col_sum_even B N k x o :
  o = (2 * x)%nat ->
  col_sum B (2 * N) k o = col_sum (fun h => B (2 * h)%nat) N k x.
Proof.
  intros ->. unfold col_sum. apply sumZ_ext. intros t _. f_equal. lia.
Qed.

(** The even lanes of the combined s1 vector hold the bytes of even
    position. *)
Lemma even_cols_total B M k :
  sumZ (fun h => col_sum B (8 * M) k (2 * h)
                 + col_sum B (8 * M) k (2 * M + 2 * h)
                 + col_sum B (8 * M) k (2 * (2 * M) + 2 * h)
                 + col_sum B (8 * M) k (3 * (2 * M) + 2 * h)) M
  = sumZ (fun h => B (2 * h)%nat) (4 * M * k).
Proof.
  rewrite <- (col_sum_total (fun h => B (2 * h)%nat) (4 * M) k).
  rewrite sumZ_four. apply sumZ_ext. intros h _.
  replace (8 * M)%nat with (2 * (4 * M))%nat by lia.
  rewrite (col_sum_even B (4 * M) k h) by lia.
  rewrite (col_sum_even B (4 * M) k (M + h)) by lia.
  rewrite (col_sum_even B (4 * M) k (2 * M + h)) by lia.
  rewrite (col_sum_even B (4 * M) k (3 * M + h)) by lia.
  reflexivity.
Qed.

(** ** What the AVX2 and AVX-512BW chunk functions compute *)

Lemma adler32_avx2_chunk_gain mem p k fuel s :
  (1 <= k)%nat ->
  adler32_avx2_chunk fuel mem p (p + 32 * k) s
  = if (k <=? fuel)%nat
    then Some (u32 (fst s + kernel_s1_gain AVX2 (chunk_byte mem p) k),
               u32 (snd s + kernel_s2_gain AVX2 (chunk_byte mem p) k))
    else None.
Proof.
  intros Hk. unfold adler32_avx2_chunk. rewrite avx2_loop_exact by exact Hk.
  destruct (k <=? fuel)%nat; [|reflexivity].
  set (B := chunk_byte mem p).
  unfold _mm256_slli_epi32.
  rewrite (wide_combine_state B 8 p k 5) by (lia || reflexivity).
  rewrite finish_256_sum by apply length_lanes32.
  match goal with
  | |- context [even_lanes (lanes32 ?F 8)] =>
      change (even_lanes (lanes32 F 8)) with (lanes32 (fun h => F (2 * h)%nat) 4)
  end.
  rewrite !u32_list_sum_lanes.
  do 4 f_equal.
  - unfold kernel_s1_gain.
    replace (16 * k)%nat with (4 * 4 * k)%nat by lia.
    exact (even_cols_total B 4 k).
  - unfold kernel_s2_gain.
    etransitivity; [|exact (weighted_columns B 32 32 k)].
    symmetry.
    exact (sumZ_four
             (fun o => 32 * col_presum B 32 k o
                       + (32 - Z.of_nat o) * col_sum B 32 k o) 8).
Qed.

Lemma adler32_avx512bw_chunk_gain mem p k fuel s :
  (1 <= k)%nat ->
  adler32_avx512bw_chunk fuel mem p (p + 64 * k) s
  = if (k <=? fuel)%nat
    then Some (u32 (fst s + kernel_s1_gain AVX512BW (chunk_byte mem p) k),
               u32 (snd s + kernel_s2_gain AVX512BW (chunk_byte mem p) k))
    else None.
Proof.
  intros Hk. unfold adler32_avx512bw_chunk.
  rewrite avx512bw_loop_exact by exact Hk.
  destruct (k <=? fuel)%nat; [|reflexivity].
  set (B := chunk_byte mem p).
  unfold _mm512_slli_epi32.
  rewrite (wide_combine_state B 16 p k 5) by (lia || reflexivity).
  rewrite finish_512_sum by apply length_lanes32.
  match goal with
  | |- context [even_lanes (lanes32 ?F 16)] =>
      change (even_lanes (lanes32 F 16))
        with (lanes32 (fun h => F (2 * h)%nat) 8)
  end.
  rewrite !u32_list_sum_lanes.
  do 4 f_equal.
  - unfold kernel_s1_gain.
    replace (32 * k)%nat with (4 * 8 * k)%nat by lia.
    exact (even_cols_total B 8 k).
  - unfold kernel_s2_gain.
    etransitivity; [|exact (weighted_columns B 32 64 k)].
    symmetry.
    exact (sumZ_four
             (fun o => 32 * col_presum B 64 k o
                       + (64 - Z.of_nat o) * col_sum B 64 k o) 16).
Qed.

(** ** The SSE2 loop *)

(** [_mm_sad_epu8] against zero adds up two groups of eight bytes; seen
    as four 32-bit lanes, the sums sit in lanes 0 and 2 and lanes 1 and
    3 are zero. *)
Lemma sad_zero_load mem a :
  v2di_as_v4si (_mm_sad_epu8 (load_bytes mem a 16) (zeroes 16))
  = [sumZ (fun i => u8 (mem (a + i)%nat)) 8; 0;
     sumZ (fun i => u8 (mem (a + (8 + i))%nat)) 8; 0].
Proof.
  unfold _mm_sad_epu8, load_bytes, zeroes.
  cbn [seq map repeat map2 firstn skipn list_sum v2di_as_v4si flat_map app
       sumZ Nat.add].
  rewrite !Z.sub_0_r.
  repeat match goal with
         | |- context [Z.abs (u8 ?b)] =>
             rewrite (Z.abs_eq (u8 b)) by apply u8_range
         end.
  repeat match goal with
         | |- context [u8 (mem ?x)] =>
             lazymatch goal with
             | _ : 0 <= u8 (mem x) <= 255 |- _ => fail
             | _ => pose proof (u8_range (mem x))
             end
         end.
  f_equal; [|f_equal; [|f_equal; [|f_equal]]].
  - rewrite Z.mod_small; lia.
  - rewrite Z.div_small, Z.mod_0_l; lia.
  - rewrite Z.mod_small; lia.
  - rewrite Z.div_small, Z.mod_0_l; lia.
Qed.

Lemma unpacklo_zero_load mem a :
  v16qi_as_v8hi (_mm_unpacklo_epi8 (load_bytes mem a 16) (zeroes 16))
  = map (fun i => u8 (mem (a + i)%nat)) (seq 0 8).
Proof.
  unfold _mm_unpacklo_epi8, load_bytes, zeroes.
  cbn [seq map repeat firstn interleave v16qi_as_v8hi Z.mul].
  now rewrite !Z.add_0_r.
Qed.

Lemma unpackhi_zero_load mem a :
  v16qi_as_v8hi (_mm_unpackhi_epi8 (load_bytes mem a 16) (zeroes 16))
  = map (fun i => u8 (mem (a + (8 + i))%nat)) (seq 0 8).
Proof.
  unfold _mm_unpackhi_epi8, load_bytes, zeroes.
  cbn [seq map repeat skipn interleave v16qi_as_v8hi Z.mul Nat.add].
  now rewrite !Z.add_0_r.
Qed.

Lemma accumulate_col16 mem p0 k (col addr : nat -> nat) :
  (forall i, addr i = (p0 + (32 * k + col i))%nat) ->
  vadd16 (lanes16 (fun i => col_sum (chunk_byte mem p0) 32 k (col i)) 8)
         (map (fun i => u8 (mem (addr i))) (seq 0 8))
  = lanes16 (fun i => col_sum (chunk_byte mem p0) 32 (S k) (col i)) 8.
Proof.
  intros Ha. unfold vadd16, lanes16. rewrite map2_map.
  apply map_ext. intros i. rewrite u16_add_l, col_sum_succ, Ha.
  reflexivity.
Qed.

Lemma sad_cols_add F G half :
  sad_cols (fun o => F o + G o) half = sad_cols F half + sad_cols G half.
Proof.
  unfold sad_cols.
  rewrite <- sumZ_add. apply sumZ_ext. intros i _. ring.
Qed.

Lemma sad_cols_succ mem p0 k half :
  sad_cols (col_sum (chunk_byte mem p0) 32 (S k)) half
  = sad_cols (col_sum (chunk_byte mem p0) 32 k) half
    + sumZ (fun i => u8 (mem (p0 + 32 * k + (8 * half + i))%nat)) 8
    + sumZ (fun i => u8 (mem (p0 + 32 * k + 16 + (8 * half + i))%nat)) 8.
Proof.
  unfold sad_cols. rewrite <- !sumZ_add. apply sumZ_ext. intros i _.
  rewrite !col_sum_succ. unfold chunk_byte.
  replace (p0 + (32 * k + (8 * half + i)))%nat
    with (p0 + 32 * k + (8 * half + i))%nat by lia.
  replace (p0 + (32 * k + (16 + 8 * half + i)))%nat
    with (p0 + 32 * k + 16 + (8 * half + i))%nat by lia.
  ring.
Qed.

Lemma sad_cols_succ_lo mem p0 k :
  sad_cols (col_sum (chunk_byte mem p0) 32 (S k)) 0
  = sad_cols (col_sum (chunk_byte mem p0) 32 k) 0
    + sumZ (fun i => u8 (mem (p0 + 32 * k + i)%nat)) 8
    + sumZ (fun i => u8 (mem (p0 + 32 * k + 16 + i)%nat)) 8.
Proof. apply (sad_cols_succ mem p0 k 0). Qed.

Lemma sad_cols_succ_hi mem p0 k :
  sad_cols (col_sum (chunk_byte mem p0) 32 (S k)) 1
  = sad_cols (col_sum (chunk_byte mem p0) 32 k) 1
    + sumZ (fun i => u8 (mem (p0 + 32 * k + (8 + i))%nat)) 8
    + sumZ (fun i => u8 (mem (p0 + 32 * k + 16 + (8 + i))%nat)) 8.
Proof. apply (sad_cols_succ mem p0 k 1). Qed.

Ltac four_lanes :=
  apply f_equal2;
  [|apply f_equal2; [|apply f_equal2; [|apply f_equal2; [|reflexivity]]]].

Lemma sse2_body_state mem p0 k :
  sse2_body mem (sse2_state (chunk_byte mem p0) p0 k)
  = sse2_state (chunk_byte mem p0) p0 (S k).
Proof.
  unfold sse2_body, sse2_state.
  cbn [Sse2.p Sse2.v_s1 Sse2.v_s2 Sse2.v_byte_sums_a Sse2.v_byte_sums_b
       Sse2.v_byte_sums_c Sse2.v_byte_sums_d].
  rewrite !sad_zero_load, !unpacklo_zero_load, !unpackhi_zero_load.
  f_equal.
  - lia.
  - unfold vadd32. cbn [map2].
    rewrite sad_cols_succ_lo, sad_cols_succ_hi.
    four_lanes; try reflexivity; u32_eq.
  - unfold vadd32. cbn [map2].
    change (col_presum (chunk_byte mem p0) 32 (S k))
      with (fun o => col_presum (chunk_byte mem p0) 32 k o
                     + col_sum (chunk_byte mem p0) 32 k o).
    rewrite !sad_cols_add.
    four_lanes; try reflexivity; u32_eq.
  - apply (accumulate_col16 mem p0 k (fun i => i)). intros; lia.
  - apply (accumulate_col16 mem p0 k (fun i => 8 + i)%nat). intros; lia.
  - apply (accumulate_col16 mem p0 k (fun i => 16 + i)%nat). intros; lia.
  - apply (accumulate_col16 mem p0 k (fun i => 24 + i)%nat). intros; lia.
Qed.

Lemma sse2_init_state B p0 : sse2_init p0 = sse2_state B p0 0.
Proof.
  unfold sse2_init, sse2_state. f_equal. lia.
Qed.

Lemma sse2_iter mem p0 k :
  Nat.iter k (sse2_body mem) (sse2_init p0)
  = sse2_state (chunk_byte mem p0) p0 k.
Proof.
  induction k as [|k IH].
  - apply sse2_init_state.
  - cbn [Nat.iter nat_rect].
    fold (Nat.iter k (sse2_body mem) (sse2_init p0)).
    rewrite IH. apply sse2_body_state.
Qed.

Lemma sse2_loop_exact mem p k fuel :
  (1 <= k)%nat ->
  sse2_loop fuel mem p (p + 32 * k)
  = if (k <=? fuel)%nat
    then Some (sse2_state (chunk_byte mem p) p k) else None.
Proof.
  intros Hk. unfold sse2_loop.
  rewrite (loop_exact (sse2_body mem) Sse2.p _ p 32 k fuel); try lia.
  - now rewrite sse2_iter.
  - intros j. now rewrite sse2_iter.
Qed.

(** ** What the SSE2 chunk function computes *)

Lemma sse2_lane_bound mem p k o :
  (k <= 128)%nat ->
  0 <= col_sum (chunk_byte mem p) 32 k o <= 32640.
Proof.
  intros Hk.
  pose proof (col_sum_bounds (chunk_byte mem p) 32 k o 255
                (chunk_byte_range mem p)).
  lia.
Qed.

(** The reduction of the vectors that the loop leaves, for byte-sum
    lanes that did not overflow their signed 16 bits. *)
Lemma sse2_finish_lanes (C P : nat -> Z) p0 s :
  (forall o, 0 <= C o <= 32640) ->
  let r :=
    {| Sse2.p := p0;
       Sse2.v_s1 := [u32 (sad_cols C 0); 0; u32 (sad_cols C 1); 0];
       Sse2.v_s2 := [u32 (sad_cols P 0); 0; u32 (sad_cols P 1); 0];
       Sse2.v_byte_sums_a := lanes16 (fun i => C i) 8;
       Sse2.v_byte_sums_b := lanes16 (fun i => C (8 + i)%nat) 8;
       Sse2.v_byte_sums_c := lanes16 (fun i => C (16 + i)%nat) 8;
       Sse2.v_byte_sums_d := lanes16 (fun i => C (24 + i)%nat) 8 |} in
  ADLER32_FINISH_VEC_CHUNK_128 s (Sse2.v_s1 r) (sse2_final_v_s2 r)
  = (u32 (fst s + sumZ C 32),
     u32 (snd s + sumZ (fun o => 32 * P o + (32 - Z.of_nat o) * C o) 32)).
Proof.
  intros HC r. unfold r, sse2_final_v_s2.
  cbn [Sse2.v_s1 Sse2.v_s2 Sse2.v_byte_sums_a Sse2.v_byte_sums_b
       Sse2.v_byte_sums_c Sse2.v_byte_sums_d].
  unfold lanes16, sse2_weights_a, sse2_weights_b, sse2_weights_c,
    sse2_weights_d, _mm_slli_epi32, slli_epi32.
  cbn [seq map _mm_madd_epi16 Nat.add].
  assert (H16 : forall o, u16 (C o) = C o).
  { intros o. apply u16_small. specialize (HC o). lia. }
  assert (Hs : forall o, s16 (C o) = C o).
  { intros o. apply s16_small. specialize (HC o). lia. }
  rewrite !H16, !Hs.
  rewrite !s16_small by lia.
  unfold vadd32. cbn [map2].
  rewrite finish_128_lanes.
  unfold sad_cols. cbn [sumZ Nat.add Nat.mul].
  rewrite !Z.shiftl_mul_pow2 by lia.
  change (2 ^ 5) with 32.
  cbn [Z.of_nat Pos.of_succ_nat Pos.succ].
  f_equal; u32_eq.
Qed.

Lemma adler32_sse2_chunk_gain mem p k fuel s :
  (1 <= k <= 128)%nat ->
  adler32_sse2_chunk fuel mem p (p + 32 * k) s
  = if (k <=? fuel)%nat
    then Some (u32 (fst s + kernel_s1_gain SSE2 (chunk_byte mem p) k),
               u32 (snd s + kernel_s2_gain SSE2 (chunk_byte mem p) k))
    else None.
Proof.
  intros Hk. unfold adler32_sse2_chunk.
  rewrite sse2_loop_exact by lia.
  destruct (k <=? fuel)%nat; [|reflexivity].
  f_equal. unfold kernel_s1_gain, kernel_s2_gain.
  rewrite <- col_sum_total, <- weighted_columns.
  apply (sse2_finish_lanes (col_sum (chunk_byte mem p) 32 k)
                           (col_presum (chunk_byte mem p) 32 k)).
  intros o. apply sse2_lane_bound. lia.
Qed.

(** The three chunk functions at once: on a chunk of [k >= 1] segments
    (at most 128 for SSE2) and with enough fuel for [k] passes of the
    loop, kernel [K] adds [kernel_s1_gain] and [kernel_s2_gain] to the
    counters. *)
Lemma chunk_func_gain K mem p k fuel s :
  (1 <= k)%nat -> (K = SSE2 -> k <= 128)%nat -> (k <= fuel)%nat ->
  chunk_func K fuel mem p (p + IMPL_SEGMENT_SIZE K * k) s
  = Some (u32 (fst s + kernel_s1_gain K (chunk_byte mem p) k),
          u32 (snd s + kernel_s2_gain K (chunk_byte mem p) k)).
Proof.
  intros Hk Hmax Hfuel.
  apply Nat.leb_le in Hfuel.
  destruct K; cbn [chunk_func IMPL_SEGMENT_SIZE].
  - rewrite adler32_sse2_chunk_gain, Hfuel by (specialize (Hmax eq_refl); lia).
    reflexivity.
  - rewrite adler32_avx2_chunk_gain, Hfuel by lia. reflexivity.
  - rewrite adler32_avx512bw_chunk_gain, Hfuel by lia. reflexivity.
Qed.

(** A valid chunk is a whole number of segments. *)
Lemma valid_chunk_segments M K n :
  valid_chunk M K n ->
  exists k, n = (IMPL_SEGMENT_SIZE K * k)%nat /\ (1 <= k)%nat /\
            (K = SSE2 -> k <= 128)%nat.
Proof.
  intros (Hpos & Hmod & Hmax).
  exists (n / IMPL_SEGMENT_SIZE K)%nat.
  assert (HN : (0 < IMPL_SEGMENT_SIZE K)%nat) by (destruct K; simpl; lia).
  pose proof (Nat.div_mod_eq n (IMPL_SEGMENT_SIZE K)) as E.
  rewrite Hmod, Nat.add_0_r in E.
  split; [exact E|]. split.
  - destruct (n / IMPL_SEGMENT_SIZE K)%nat; lia.
  - intros ->. cbn [IMPL_SEGMENT_SIZE IMPL_MAX_CHUNK_SIZE] in *.
    change (Z.to_nat (32 * (32767 / 255))) with 4096%nat in Hmax. lia.
Qed.

(** * The claims *)

(** ** Horizontal reduction *)

(** C2, as stated, fails: with the s1 vector (0, 1, 0, 0) the 128-bit
    macro adds nothing to s1, although the lanes sum to 1. *)
Lemma C2_counterexample :
  ADLER32_FINISH_VEC_CHUNK_128 (0, 0) [0; 1; 0; 0] [0; 0; 0; 0]
  <> (u32 (0 + list_sum [0; 1; 0; 0]), u32 (0 + list_sum [0; 0; 0; 0])).
Proof. vm_compute. discriminate. Qed.

(** C2 (amended): for vectors of 4, 8 and 16 lanes the macros
    [ADLER32_FINISH_VEC_CHUNK_128], [_256] and [_512] add to s2 the sum
    of all the lanes of the s2 vector, and to s1 the sum of the
    even-indexed lanes of the s1 vector, both modulo 2^32. *)
Theorem C2_finish_vec_chunk_sums (s : Z * Z) (v_s1 v_s2 : vec) :
  let sums := (u32 (fst s + list_sum (even_lanes v_s1)),
               u32 (snd s + list_sum v_s2)) in
  (length v_s1 = 4%nat -> length v_s2 = 4%nat ->
   ADLER32_FINISH_VEC_CHUNK_128 s v_s1 v_s2 = sums) /\
  (length v_s1 = 8%nat -> length v_s2 = 8%nat ->
   ADLER32_FINISH_VEC_CHUNK_256 s v_s1 v_s2 = sums) /\
  (length v_s1 = 16%nat -> length v_s2 = 16%nat ->
   ADLER32_FINISH_VEC_CHUNK_512 s v_s1 v_s2 = sums).
Proof.
  intros sums. repeat split; intros H1 H2.
  - now apply finish_128_sum.
  - now apply finish_256_sum.
  - now apply finish_512_sum.
Qed.

Lemma C2_finish_vec_chunk_sums_witness :
  ADLER32_FINISH_VEC_CHUNK_128 (65520, 7) [1; 2; 3; 4] [5; 6; 7; 4294967295]
  = (65524, 24) /\
  ADLER32_FINISH_VEC_CHUNK_256 (1, 0) [1; 2; 3; 4; 5; 6; 7; 8]
                               [1; 2; 3; 4; 5; 6; 7; 8]
  = (17, 36) /\
  ADLER32_FINISH_VEC_CHUNK_512 (1, 0)
    [1; 1; 1; 1; 1; 1; 1; 1; 1; 1; 1; 1; 1; 1; 1; 1]
    [1; 2; 3; 4; 5; 6; 7; 8; 9; 10; 11; 12; 13; 14; 15; 16]
  = (9, 136).
Proof.
  split; [|split].
  - exact (proj1 (C2_finish_vec_chunk_sums (65520, 7) [1; 2; 3; 4]
                    [5; 6; 7; 4294967295]) eq_refl eq_refl).
  - exact (proj1 (proj2 (C2_finish_vec_chunk_sums (1, 0)
                    [1; 2; 3; 4; 5; 6; 7; 8] [1; 2; 3; 4; 5; 6; 7; 8]))
                 eq_refl eq_refl).
  - exact (proj2 (proj2 (C2_finish_vec_chunk_sums (1, 0)
                    [1; 1; 1; 1; 1; 1; 1; 1; 1; 1; 1; 1; 1; 1; 1; 1]
                    [1; 2; 3; 4; 5; 6; 7; 8; 9; 10; 11; 12; 13; 14; 15; 16]))
                 eq_refl eq_refl).
Defined.

Lemma u32_add_cancel a d : u32 (a + d) = u32 a <-> u32 d = 0.
Proof.
  unfold u32. split; intros H.
  - assert (E : d = (a + d) - a) by lia. rewrite E.
    rewrite Zminus_mod, H, Z.sub_diag. reflexivity.
  - rewrite <- Zplus_mod_idemp_r, H, Z.add_0_r. reflexivity.
Qed.

Lemma finish_128_s1 s a0 a1 a2 a3 v_s2 :
  fst (ADLER32_FINISH_VEC_CHUNK_128 s [a0; a1; a2; a3] v_s2)
  = u32 (fst s + (a0 + a2)).
Proof.
  unfold ADLER32_FINISH_VEC_CHUNK_128, _mm_cvtsi128_si32, _mm_shuffle_epi32,
    vadd32.
  cbn [map map2 nth fst snd].
  change (Z.to_nat (Z.land (Z.shiftr 2 (2 * 0)) 3)) with 2%nat.
  cbn [nth]. u32_eq.
Qed.

(** The s1 counters of the SSE2 loop keep their odd lanes at zero. *)
Lemma sse2_state_odd_lanes B p0 k :
  nth 1 (Sse2.v_s1 (sse2_state B p0 k)) 0 = 0 /\
  nth 3 (Sse2.v_s1 (sse2_state B p0 k)) 0 = 0.
Proof. split; reflexivity. Qed.

(** C9, as stated, fails in its "exactly when": with the s1 vector
    (0, 1, 0, 2^32 - 1) the scalar that the 128-bit macro adds equals
    the sum of all four lanes modulo 2^32, although lanes 1 and 3 are
    not zero. *)
Lemma C9_counterexample :
  let v := [0; 1; 0; 4294967295] in
  fst (ADLER32_FINISH_VEC_CHUNK_128 (0, 0) v v) = u32 (0 + list_sum v) /\
  nth 1 v 0 <> 0 /\ nth 3 v 0 <> 0.
Proof. vm_compute. repeat split; discriminate. Qed.

(** C9 (amended): the s1 fold of [ADLER32_FINISH_VEC_CHUNK_128] does
    only the 0x02 shuffle step, so it adds lane 0 plus lane 2 of the
    4-lane s1 vector; this equals the sum of all four lanes (modulo
    2^32) exactly when lanes 1 and 3 add up to zero modulo 2^32, in
    particular when both are zero.  The SSE2 kernel keeps lanes 1 and 3
    of [v_s1] at zero: each [_mm_sad_epu8] result, read as four 32-bit
    lanes, has its sums in lanes 0 and 2 and zero in lanes 1 and 3, and
    so has [v_s1] after any number of passes of the loop. *)
Theorem C9_s1_fold_even_lanes (s : Z * Z) (a0 a1 a2 a3 : Z) (v_s2 : vec)
        (mem : memory) (p j : nat) :
  let added := fst (ADLER32_FINISH_VEC_CHUNK_128 s [a0; a1; a2; a3] v_s2) in
  added = u32 (fst s + (a0 + a2)) /\
  (added = u32 (fst s + list_sum [a0; a1; a2; a3]) <-> u32 (a1 + a3) = 0) /\
  (a1 = 0 -> a3 = 0 -> added = u32 (fst s + list_sum [a0; a1; a2; a3])) /\
  (let sad := v2di_as_v4si (_mm_sad_epu8 (load_bytes mem p 16) (zeroes 16)) in
   nth 1 sad 0 = 0 /\ nth 3 sad 0 = 0) /\
  (let r := Nat.iter j (sse2_body mem) (sse2_init p) in
   nth 1 (Sse2.v_s1 r) 0 = 0 /\ nth 3 (Sse2.v_s1 r) 0 = 0).
Proof.
  intros added. unfold added. rewrite finish_128_s1. cbn [list_sum].
  assert (E : fst s + (a0 + (a1 + (a2 + (a3 + 0))))
              = fst s + (a0 + a2) + (a1 + a3)) by ring.
  rewrite E. split; [reflexivity|]. split; [|split; [|split]].
  - rewrite <- (u32_add_cancel (fst s + (a0 + a2)) (a1 + a3)).
    split; intros H; now symmetry.
  - intros -> ->. now rewrite !Z.add_0_r.
  - rewrite sad_zero_load. split; reflexivity.
  - rewrite sse2_iter. apply sse2_state_odd_lanes.
Qed.

Lemma C9_s1_fold_even_lanes_witness :
  fst (ADLER32_FINISH_VEC_CHUNK_128 (1, 0) [10; 0; 20; 0] [1; 2; 3; 4])
  = u32 (1 + list_sum [10; 0; 20; 0]).
Proof.
  exact (proj1 (proj2 (proj2
           (C9_s1_fold_even_lanes (1, 0) 10 0 20 0 [1; 2; 3; 4]
              (fun _ => xff) 0 1)))
         eq_refl eq_refl).
Defined.

(** ** The chunk functions against scalar processing *)

(** C1 at failing inputs.  On a chunk whose only nonzero byte is a 1 at
    position 1, scalar processing of 32 bytes (of 64 bytes) takes the
    counters (1, 0) to (2, 31) (to (2, 63)), and so does the SSE2
    kernel; the AVX2 and AVX-512BW kernels leave s1 at 1, because the
    reduction macro adds only the even lanes of their s1 vector, whose
    odd lanes are not zero. *)
Theorem C1_avx_kernels_lose_odd_bytes :
  let mem := mem_of_list [x00; x01] in
  scalar_chunk mem 0 32 (1, 0) = (2, 31) /\
  adler32_sse2_chunk 1 mem 0 32 (1, 0) = Some (2, 31) /\
  adler32_avx2_chunk 1 mem 0 32 (1, 0) = Some (1, 31) /\
  scalar_chunk mem 0 64 (1, 0) = (2, 63) /\
  adler32_avx512bw_chunk 1 mem 0 64 (1, 0) = Some (1, 63).
Proof. vm_compute. repeat split. Qed.

(** C3 at a failing input.  On a chunk of two 64-byte segments whose
    only nonzero byte is a 1 at position 0, scalar processing takes the
    counters (1, 0) to (2, 128); the AVX-512BW kernel yields (2, 96):
    the deferred additions of the first segment are scaled by 32, the
    left shift by 5, and not by the 64 bytes of a segment.  The AVX2
    and SSE2 kernels, whose segment is 32 bytes, agree with scalar
    processing on s2 for the same bytes. *)
Theorem C3_avx512bw_shift_is_32 :
  let mem := mem_of_list [x01] in
  scalar_chunk mem 0 128 (1, 0) = (2, 128) /\
  adler32_avx512bw_chunk 2 mem 0 128 (1, 0) = Some (2, 96) /\
  adler32_avx2_chunk 4 mem 0 128 (1, 0) = Some (2, 128) /\
  adler32_sse2_chunk 4 mem 0 128 (1, 0) = Some (2, 128).
Proof. vm_compute. repeat split. Qed.

(** ** Weights *)

Lemma kernel_weights_descending K :
  kernel_weights K = descending (IMPL_SEGMENT_SIZE K).
Proof. destruct K; reflexivity. Qed.

Lemma kernel_s2_gain_exact K B k :
  K <> AVX512BW ->
  kernel_s2_gain K B k
  = sumZ (fun j => (Z.of_nat (IMPL_SEGMENT_SIZE K * k) - Z.of_nat j) * B j)
         (IMPL_SEGMENT_SIZE K * k).
Proof.
  intros HK.
  destruct K; [| |congruence]; cbn [kernel_s2_gain IMPL_SEGMENT_SIZE];
    apply sumZ_ext; intros j _;
    rewrite <- (seg_weight_exact 32 k j); reflexivity.
Qed.

(** On every valid chunk the SSE2 kernel leaves the counters of scalar
    processing. *)
Corollary adler32_sse2_chunk_scalar M mem p n fuel s :
  valid_chunk M SSE2 n -> (n / 32 <= fuel)%nat ->
  adler32_sse2_chunk fuel mem p (p + n) s = Some (scalar_chunk mem p n s).
Proof.
  intros Hv Hfuel.
  destruct (valid_chunk_segments _ _ _ Hv) as (k & -> & Hk & Hmax).
  cbn [IMPL_SEGMENT_SIZE] in *.
  rewrite Nat.mul_comm, Nat.div_mul in Hfuel by lia.
  rewrite (chunk_func_gain SSE2) by assumption.
  rewrite (kernel_s2_gain_exact SSE2) by discriminate.
  reflexivity.
Qed.

(** Past the maximum chunk size the SSE2 kernel does overflow: on 129
    segments of bytes 255 a byte-sum lane reaches 32895 and s2 comes out
    wrong. *)
Example adler32_sse2_chunk_beyond_max :
  adler32_sse2_chunk 129 (fun _ => xff) 0 4128 (1, 0)
  = Some (1052641, 2138572272) /\
  scalar_chunk (fun _ => xff) 0 4128 (1, 0) = (1052641, 2173175280).
Proof. vm_compute. split; reflexivity. Qed.

(** The counters are not reduced modulo 65521. *)
Example adler32_sse2_chunk_no_modulo :
  adler32_sse2_chunk 2 (fun _ => xff) 0 64 (65520, 65520)
  = Some (81840, 595920).
Proof. vm_compute. reflexivity. Qed.

(** C4, as stated, fails: a chunk of 64 bytes is valid for the SSE2
    kernel, and the weights of that kernel are 32, 31, ..., 1, not 64,
    63, ..., 1. *)
Lemma C4_counterexample :
  valid_chunk 4096 SSE2 64 /\ kernel_weights SSE2 <> descending 64.
Proof.
  split.
  - unfold valid_chunk. cbn. lia.
  - vm_compute. discriminate.
Qed.

(** C4 (amended): in every kernel the weights of the four byte-sum
    groups, in processing order, descend from the segment size in bytes
    (64 for AVX-512BW, 32 for AVX2 and SSE2) down to 1, whatever the
    length of the chunk; in the SSE2 and AVX2 kernels, for every valid
    chunk of [n] bytes, together with the deferred shift this multiplies
    the byte at position [j] by [n - j], the number of bytes after it
    plus one, in what is added to s2 (modulo 2^32). *)
Theorem C4_weights_descend_from_segment_size
        (MAX_CHUNK_SIZE : nat) (K : kernel) (mem : memory)
        (p n fuel : nat) (s : Z * Z) :
  kernel_weights K = descending (IMPL_SEGMENT_SIZE K) /\
  (K <> AVX512BW ->
   valid_chunk MAX_CHUNK_SIZE K n ->
   (n / IMPL_SEGMENT_SIZE K <= fuel)%nat ->
   exists s1',
     chunk_func K fuel mem p (p + n) s
     = Some (s1',
             u32 (snd s + sumZ (fun j => (Z.of_nat n - Z.of_nat j)
                                         * chunk_byte mem p j) n))).
Proof.
  split; [apply kernel_weights_descending|].
  intros HK Hv Hfuel.
  destruct (valid_chunk_segments _ _ _ Hv) as (k & -> & Hk & Hmax).
  assert (HN : (IMPL_SEGMENT_SIZE K <> 0)%nat) by (destruct K; simpl; lia).
  rewrite Nat.mul_comm, Nat.div_mul in Hfuel by exact HN.
  rewrite chunk_func_gain by assumption.
  rewrite kernel_s2_gain_exact by exact HK.
  eexists. reflexivity.
Qed.

Lemma C4_weights_descend_from_segment_size_witness :
  exists s1',
    chunk_func SSE2 2 (fun _ => xff) 0 (0 + 64) (1, 0)
    = Some (s1',
            u32 (snd (1, 0)
                 + sumZ (fun j => (Z.of_nat 64 - Z.of_nat j)
                                  * chunk_byte (fun _ => xff) 0 j) 64)).
Proof.
  refine (proj2 (C4_weights_descend_from_segment_size
                   4096 SSE2 (fun _ => xff) 0 64 2 (1, 0)) _ _ _).
  - discriminate.
  - unfold valid_chunk. cbn. lia.
  - cbn. lia.
Defined.

(** ** Overflow safety of the SSE2 kernel *)

Lemma sse2_byte_sums_state mem p j :
  (j <= 128)%nat ->
  sse2_byte_sums (sse2_state (chunk_byte mem p) p j)
  = map (col_sum (chunk_byte mem p) 32 j) (seq 0 32).
Proof.
  intros Hj.
  assert (H16 : forall o, u16 (col_sum (chunk_byte mem p) 32 j o)
                          = col_sum (chunk_byte mem p) 32 j o).
  { intros o. apply u16_small.
    pose proof (sse2_lane_bound mem p j o Hj). lia. }
  unfold sse2_byte_sums, sse2_state, lanes16.
  cbn [Sse2.v_byte_sums_a Sse2.v_byte_sums_b Sse2.v_byte_sums_c
       Sse2.v_byte_sums_d seq map app Nat.add].
  rewrite !H16. reflexivity.
Qed.

Lemma valid_chunk_sse2_passes M n j :
  valid_chunk M SSE2 n -> (j <= n / 32)%nat -> (j <= 128)%nat.
Proof.
  intros Hv Hj.
  destruct (valid_chunk_segments _ _ _ Hv) as (k & -> & Hk & Hmax).
  cbn [IMPL_SEGMENT_SIZE] in Hj.
  rewrite Nat.mul_comm, Nat.div_mul in Hj by lia.
  specialize (Hmax eq_refl). lia.
Qed.

(** C5: for a chunk handed to the SSE2 kernel whose length [n] is a
    positive multiple of 32 and at most [IMPL_MAX_CHUNK_SIZE] =
    32 * (0x7FFF / 0xFF) = 4096, after any number [j <= n / 32] of
    passes of the loop every 16-bit byte-sum lane holds the exact sum of
    its bytes, at most 255 * j <= 0x7FFF, so that no signed 16-bit
    overflow occurs; and every product that [_mm_madd_epi16] forms of
    such a lane with a weight in 1..32, and every sum of two such
    products, fits in the signed 32-bit range.  The loop ends in the
    state reached after [n / 32] passes. *)
Theorem C5_sse2_byte_sums_do_not_overflow
        (MAX_CHUNK_SIZE : nat) (mem : memory) (p n j : nat) :
  valid_chunk MAX_CHUNK_SIZE SSE2 n ->
  (j <= n / 32)%nat ->
  let r := Nat.iter j (sse2_body mem) (sse2_init p) in
  sse2_byte_sums r = map (col_sum (chunk_byte mem p) 32 j) (seq 0 32) /\
  Forall (fun x => 0 <= x <= 255 * Z.of_nat j /\ x <= 0x7FFF)
         (sse2_byte_sums r) /\
  (forall x w, In x (sse2_byte_sums r) -> 1 <= w <= 32 ->
               s16 x = x /\ s16 w = w /\ fits_s32 (s16 x * s16 w)) /\
  (forall x0 x1 w0 w1,
      In x0 (sse2_byte_sums r) -> In x1 (sse2_byte_sums r) ->
      1 <= w0 <= 32 -> 1 <= w1 <= 32 ->
      fits_s32 (s16 x0 * s16 w0 + s16 x1 * s16 w1)) /\
  (forall fuel, (n / 32 <= fuel)%nat ->
                sse2_loop fuel mem p (p + n)
                = Some (Nat.iter (n / 32) (sse2_body mem) (sse2_init p))).
Proof.
  intros Hv Hj r.
  pose proof (valid_chunk_sse2_passes _ _ _ Hv Hj) as Hj128.
  assert (Hsums : sse2_byte_sums r
                  = map (col_sum (chunk_byte mem p) 32 j) (seq 0 32)).
  { unfold r. rewrite sse2_iter. now apply sse2_byte_sums_state. }
  assert (Hall : Forall (fun x => 0 <= x <= 255 * Z.of_nat j /\ x <= 0x7FFF)
                        (sse2_byte_sums r)).
  { rewrite Hsums. apply Forall_forall. intros x Hx.
    apply in_map_iff in Hx. destruct Hx as (o & <- & _).
    pose proof (col_sum_bounds (chunk_byte mem p) 32 j o 255
                  (chunk_byte_range mem p)).
    lia. }
  assert (Hin : forall x, In x (sse2_byte_sums r) -> 0 <= x <= 32767).
  { intros x Hx. rewrite Forall_forall in Hall.
    specialize (Hall x Hx). lia. }
  split; [exact Hsums|]. split; [exact Hall|]. split; [|split].
  - intros x w Hx Hw. specialize (Hin x Hx).
    rewrite !s16_small by lia. unfold fits_s32. repeat split; nia.
  - intros x0 x1 w0 w1 Hx0 Hx1 Hw0 Hw1.
    pose proof (Hin x0 Hx0). pose proof (Hin x1 Hx1).
    rewrite !s16_small by lia. unfold fits_s32. split; nia.
  - intros fuel Hfuel.
    destruct (valid_chunk_segments _ _ _ Hv) as (k & -> & Hk & _).
    cbn [IMPL_SEGMENT_SIZE] in *.
    rewrite (Nat.mul_comm 32 k), Nat.div_mul in * by lia.
    rewrite (Nat.mul_comm k 32), sse2_loop_exact by lia.
    apply Nat.leb_le in Hfuel. rewrite Hfuel, sse2_iter. reflexivity.
Qed.

(** The maximal chunk, 4096 bytes of value 255: every byte-sum lane
    ends at 128 * 255 = 32640. *)
Lemma C5_sse2_byte_sums_do_not_overflow_witness :
  Forall (fun x => 0 <= x <= 255 * Z.of_nat 128 /\ x <= 0x7FFF)
         (sse2_byte_sums
            (Nat.iter 128 (sse2_body (fun _ => xff)) (sse2_init 0))).
Proof.
  refine (proj1 (proj2 (C5_sse2_byte_sums_do_not_overflow
                          4096 (fun _ => xff) 0 4096 128 _ _))).
  - unfold valid_chunk. cbn. lia.
  - cbn. lia.
Defined.

(** ** The dispatcher *)

(** C6: for every capability bitset (and every set of compiled-in
    kernels) [arch_select_adler32_func] returns a kernel if and only if
    that kernel is eligible, that is compiled in (its [DISPATCH_*] macro
    defined) and reported present in the bitset, and no kernel of a
    wider vector width is eligible: the tests run AVX-512BW, then AVX2,
    then SSE2, and the first eligible kernel wins. *)
Theorem C6_dispatch_most_capable_first
        (cfg : dispatch_config) (masks : feature_masks) (features : Z)
        (f : adler32_func_t) :
  arch_select_adler32_func cfg masks features = Some f <->
  eligible cfg masks features f = true /\
  forall f', (vector_width f < vector_width f')%nat ->
             eligible cfg masks features f' = false.
Proof.
  unfold arch_select_adler32_func.
  change (DISPATCH_AVX512BW cfg &&
          has_feature features (X86_CPU_FEATURE_AVX512BW masks))
    with (eligible cfg masks features adler32_avx512bw).
  change (DISPATCH_AVX2 cfg &&
          has_feature features (X86_CPU_FEATURE_AVX2 masks))
    with (eligible cfg masks features adler32_avx2).
  change (DISPATCH_SSE2 cfg &&
          has_feature features (X86_CPU_FEATURE_SSE2 masks))
    with (eligible cfg masks features adler32_sse2).
  split.
  - destruct (eligible cfg masks features adler32_avx512bw) eqn:H512.
    { intros H. inversion H. subst f. split; [assumption|].
      intros f' Hw. destruct f'; cbn in Hw; lia. }
    destruct (eligible cfg masks features adler32_avx2) eqn:H2.
    { intros H. inversion H. subst f. split; [assumption|].
      intros f' Hw. destruct f'; cbn in Hw; try lia. assumption. }
    destruct (eligible cfg masks features adler32_sse2) eqn:Hs.
    { intros H. inversion H. subst f. split; [assumption|].
      intros f' Hw. destruct f'; cbn in Hw; try lia; assumption. }
    discriminate.
  - intros [He Hmax]. destruct f.
    + rewrite (Hmax adler32_avx512bw), (Hmax adler32_avx2), He
        by (cbn; lia).
      reflexivity.
    + rewrite (Hmax adler32_avx512bw), He by (cbn; lia). reflexivity.
    + rewrite He. reflexivity.
Qed.

(** C7: the dispatcher is a total function of the capability bitset:
    it always returns a value, two calls on the same bitset return the
    same value, and it returns NULL exactly when no compiled-in kernel
    has its feature bit set. *)
Theorem C7_dispatch_total_and_pure
        (cfg : dispatch_config) (masks : feature_masks) (features : Z) :
  (exists r, arch_select_adler32_func cfg masks features = r) /\
  (forall r1 r2,
      arch_select_adler32_func cfg masks features = r1 ->
      arch_select_adler32_func cfg masks features = r2 -> r1 = r2) /\
  (arch_select_adler32_func cfg masks features = None <->
   forall f, eligible cfg masks features f = false).
Proof.
  split; [eexists; reflexivity|]. split; [intros r1 r2 <- <-; reflexivity|].
  unfold arch_select_adler32_func.
  change (DISPATCH_AVX512BW cfg &&
          has_feature features (X86_CPU_FEATURE_AVX512BW masks))
    with (eligible cfg masks features adler32_avx512bw).
  change (DISPATCH_AVX2 cfg &&
          has_feature features (X86_CPU_FEATURE_AVX2 masks))
    with (eligible cfg masks features adler32_avx2).
  change (DISPATCH_SSE2 cfg &&
          has_feature features (X86_CPU_FEATURE_SSE2 masks))
    with (eligible cfg masks features adler32_sse2).
  split.
  - intros H f.
    destruct (eligible cfg masks features adler32_avx512bw) eqn:H512;
      [discriminate|].
    destruct (eligible cfg masks features adler32_avx2) eqn:H2;
      [discriminate|].
    destruct (eligible cfg masks features adler32_sse2) eqn:Hs;
      [discriminate|].
    destruct f; assumption.
  - intros H.
    rewrite (H adler32_avx512bw), (H adler32_avx2), (H adler32_sse2).
    reflexivity.
Qed.

Lemma C7_dispatch_total_and_pure_witness :
  let cfg := {| DISPATCH_AVX512BW := true; DISPATCH_AVX2 := true;
                DISPATCH_SSE2 := false |} in
  let masks := {| X86_CPU_FEATURE_SSE2 := 0x1; X86_CPU_FEATURE_AVX2 := 0x8;
                  X86_CPU_FEATURE_AVX512BW := 0x20 |} in
  arch_select_adler32_func cfg masks 0x1 = None /\
  Some adler32_avx2 = arch_select_adler32_func cfg masks 0x9.
Proof.
  intros cfg masks. split.
  - apply (proj2 (proj2 (proj2 (C7_dispatch_total_and_pure cfg masks 0x1)))).
    intros f. destruct f; reflexivity.
  - apply (proj1 (proj2 (C7_dispatch_total_and_pure cfg masks 0x9))
             (Some adler32_avx2) (arch_select_adler32_func cfg masks 0x9));
      reflexivity.
Defined.

(** ** The caller's counters *)

Lemma kernel_gain_ext K B B' k :
  (forall j, (j < IMPL_SEGMENT_SIZE K * k)%nat -> B j = B' j) ->
  kernel_s1_gain K B k = kernel_s1_gain K B' k /\
  kernel_s2_gain K B k = kernel_s2_gain K B' k.
Proof.
  intros H.
  destruct K; cbn [kernel_s1_gain kernel_s2_gain IMPL_SEGMENT_SIZE] in *;
    split; apply sumZ_ext; intros j Hj; rewrite H by lia; reflexivity.
Qed.

(** C8: for every kernel and every valid chunk, the counters written
    back are the incoming counters plus contributions, modulo 2^32; the
    contributions are those that the kernel makes to zero counters on
    any memory that holds the same chunk bytes, at any address: they
    depend on the bytes of the chunk only, not on the incoming s1 and
    s2, which are neither overwritten nor reset, and nothing is reduced
    modulo 65521. *)
Theorem C8_kernel_adds_chunk_contributions
        (MAX_CHUNK_SIZE : nat) (K : kernel) (mem mem' : memory)
        (p p' n fuel : nat) (s1 s2 : Z) :
  valid_chunk MAX_CHUNK_SIZE K n ->
  (n / IMPL_SEGMENT_SIZE K <= fuel)%nat ->
  (forall j, (j < n)%nat -> mem (p + j)%nat = mem' (p' + j)%nat) ->
  exists c1 c2,
    0 <= c1 < 2 ^ 32 /\ 0 <= c2 < 2 ^ 32 /\
    chunk_func K fuel mem' p' (p' + n) (0, 0) = Some (c1, c2) /\
    chunk_func K fuel mem p (p + n) (s1, s2)
    = Some (u32 (s1 + c1), u32 (s2 + c2)).
Proof.
  intros Hv Hfuel Hmem.
  destruct (valid_chunk_segments _ _ _ Hv) as (k & -> & Hk & Hmax).
  assert (HN : (IMPL_SEGMENT_SIZE K <> 0)%nat) by (destruct K; simpl; lia).
  rewrite Nat.mul_comm, Nat.div_mul in Hfuel by exact HN.
  rewrite !chunk_func_gain by assumption.
  destruct (kernel_gain_ext K (chunk_byte mem p) (chunk_byte mem' p') k)
    as [E1 E2].
  { intros j Hj. unfold chunk_byte. now rewrite Hmem. }
  rewrite E1, E2. cbn [fst snd].
  eexists. eexists.
  split; [apply u32_range|]. split; [apply u32_range|].
  split; [reflexivity|].
  f_equal. f_equal; u32_eq.
Qed.

(** The SSE2 kernel on 64 bytes of value 255 with incoming counters
    (65520, 65520): the result, (81840, 595920), is above 65521. *)
Lemma C8_kernel_adds_chunk_contributions_witness :
  exists c1 c2,
    0 <= c1 < 2 ^ 32 /\ 0 <= c2 < 2 ^ 32 /\
    chunk_func SSE2 2 (fun _ => xff) 7 (7 + 64) (0, 0) = Some (c1, c2) /\
    chunk_func SSE2 2 (fun _ => xff) 0 (0 + 64) (65520, 65520)
    = Some (u32 (65520 + c1), u32 (65520 + c2)).
Proof.
  refine (C8_kernel_adds_chunk_contributions
            4096 SSE2 (fun _ => xff) (fun _ => xff) 0 7 64 2 65520 65520
            _ _ _).
  - unfold valid_chunk. cbn. lia.
  - cbn. lia.
  - reflexivity.
Defined.

(** ** Termination of the loops *)

Lemma do_while_exit {St : Type} (body : St -> St) (cond : St -> bool) :
  forall fuel s r, do_while body cond fuel s = Some r -> cond r = false.
Proof.
  induction fuel as [|fuel IH]; intros s r H; [discriminate|].
  cbn [do_while] in H. cbv zeta in H.
  destruct (cond (body s)) eqn:E.
  - eapply IH. exact H.
  - inversion H. subst r. exact E.
Qed.

Lemma chunk_func_none_iff K fuel mem p end_ s :
  chunk_func K fuel mem p end_ s = None <->
  match K with
  | SSE2 => sse2_loop fuel mem p end_ = None
  | AVX2 => avx2_loop fuel mem p end_ = None
  | AVX512BW => avx512bw_loop fuel mem p end_ = None
  end.
Proof.
  destruct K; cbn [chunk_func];
    [unfold adler32_sse2_chunk; destruct (sse2_loop fuel mem p end_)
    |unfold adler32_avx2_chunk; destruct (avx2_loop fuel mem p end_)
    |unfold adler32_avx512bw_chunk; destruct (avx512bw_loop fuel mem p end_)];
    try (destruct (wide_combine _ _ _ _ _ _ _));
    split; intros H; (discriminate || reflexivity).
Qed.

(** C10: each loop leaves only when its pointer equals [end]; the
    pointer advances by the segment size per pass (64 bytes in the
    AVX-512BW loop, 32 in the AVX2 loop, twice 16 in the SSE2 loop), so
    on a chunk of [k >= 1] segments each kernel returns after exactly
    [k] passes: with fuel for [k] passes or more it returns, with less
    it does not.  When the length of the chunk is an odd multiple of 16
    the pointer of the SSE2 loop never equals [end] and the kernel
    returns for no amount of fuel. *)
Theorem C10_loops_exit_on_pointer_equality
        (K : kernel) (mem : memory) (p k fuel : nat) (s : Z * Z) :
  (* the pointer after [j] passes *)
  (forall j,
      Sse2.p (Nat.iter j (sse2_body mem) (sse2_init p)) = (p + 32 * j)%nat /\
      Wide.p (Nat.iter j (avx2_body mem) (wide_init 8 p)) = (p + 32 * j)%nat /\
      Wide.p (Nat.iter j (avx512bw_body mem) (wide_init 16 p))
      = (p + 64 * j)%nat) /\
  (* exit only on equality *)
  (forall end_ r w,
      (sse2_loop fuel mem p end_ = Some r -> Sse2.p r = end_) /\
      (avx2_loop fuel mem p end_ = Some w -> Wide.p w = end_) /\
      (avx512bw_loop fuel mem p end_ = Some w -> Wide.p w = end_)) /\
  (* exactly [k] passes *)
  ((1 <= k)%nat ->
   ((k <= fuel)%nat ->
    chunk_func K fuel mem p (p + IMPL_SEGMENT_SIZE K * k) s <> None) /\
   ((fuel < k)%nat ->
    chunk_func K fuel mem p (p + IMPL_SEGMENT_SIZE K * k) s = None)) /\
  (* a multiple of 16 that is not a multiple of 32 *)
  (Nat.odd k = true ->
   adler32_sse2_chunk fuel mem p (p + 16 * k) s = None).
Proof.
  split; [|split; [|split]].
  - intros j. rewrite sse2_iter, avx2_iter, avx512bw_iter.
    repeat split.
  - intros end_ r w. repeat split; intros H;
      apply do_while_exit in H; apply negb_false_iff, Nat.eqb_eq in H;
      exact H.
  - intros Hk. rewrite chunk_func_none_iff.
    destruct K; cbn [IMPL_SEGMENT_SIZE];
      [rewrite sse2_loop_exact by exact Hk
      |rewrite avx2_loop_exact by exact Hk
      |rewrite avx512bw_loop_exact by exact Hk];
      (split; intros Hf;
       [apply Nat.leb_le in Hf; rewrite Hf; discriminate
       |apply Nat.leb_gt in Hf; rewrite Hf; reflexivity]).
  - intros Hodd.
    apply (chunk_func_none_iff SSE2). unfold sse2_loop.
    apply (loop_never (sse2_body mem) Sse2.p _ p 32).
    + intros j. now rewrite sse2_iter.
    + intros j Hj E.
      apply Nat.odd_spec in Hodd. destruct Hodd as [m ->]. lia.
Qed.

Lemma C10_loops_exit_on_pointer_equality_witness :
  chunk_func AVX512BW 3 (fun _ => xff) 0 (0 + IMPL_SEGMENT_SIZE AVX512BW * 3)
             (1, 0) <> None /\
  chunk_func AVX512BW 2 (fun _ => xff) 0 (0 + IMPL_SEGMENT_SIZE AVX512BW * 3)
             (1, 0) = None /\
  adler32_sse2_chunk 1000 (fun _ => xff) 0 (0 + 16 * 3) (1, 0) = None.
Proof.
  pose proof (C10_loops_exit_on_pointer_equality
                AVX512BW (fun _ => xff) 0 3 3 (1, 0)) as H3.
  pose proof (C10_loops_exit_on_pointer_equality
                AVX512BW (fun _ => xff) 0 3 2 (1, 0)) as H2.
  pose proof (C10_loops_exit_on_pointer_equality
                SSE2 (fun _ => xff) 0 3 1000 (1, 0)) as H16.
  split; [|split].
  - apply (proj1 (proj2 (proj2 H3))); lia.
  - apply (proj1 (proj2 (proj2 H2))); lia.
  - apply (proj2 (proj2 (proj2 H16))). reflexivity.
Defined.

(** * Further properties *)

(** ** Which chunks a kernel returns from *)

Lemma loop_returns_iff {St : Type} (body : St -> St) (getp : St -> nat)
      s p0 N end_ :
  (0 < N)%nat ->
  (forall j, getp (Nat.iter j body s) = (p0 + N * j)%nat) ->
  (exists fuel,
      do_while body (fun r => negb (getp r =? end_)%nat) fuel s <> None) <->
  exists k, (1 <= k)%nat /\ end_ = (p0 + N * k)%nat.
Proof.
  intros HN Hp. split.
  - intros [fuel Hfuel].
    destruct (le_lt_dec end_ p0) as [Hle|Hlt].
    { exfalso. apply Hfuel. apply (loop_never body getp s p0 N); [exact Hp|].
      intros j Hj. nia. }
    destruct (Nat.eq_dec ((end_ - p0) mod N) 0) as [Hmod|Hmod].
    + exists ((end_ - p0) / N)%nat.
      pose proof (Nat.div_mod_eq (end_ - p0) N) as E.
      rewrite Hmod, Nat.add_0_r in E.
      split; [|lia].
      destruct ((end_ - p0) / N)%nat; lia.
    + exfalso. apply Hfuel. apply (loop_never body getp s p0 N); [exact Hp|].
      intros j Hj E. apply Hmod.
      replace (end_ - p0)%nat with (j * N)%nat by lia.
      apply Nat.Div0.mod_mul.
  - intros (k & Hk & ->). exists k.
    rewrite (loop_exact body getp s p0 N k k) by assumption.
    rewrite Nat.leb_refl. discriminate.
Qed.

(** X1: whatever the memory and the incoming counters, a chunk function
    called on [p] and [end] returns (for some number of passes) if and
    only if [end] lies a positive multiple of the segment size above
    [p]; on an empty chunk ([end = p]), on [end] below [p] and on any
    other distance the exit test of the loop never holds. *)
Theorem X1_chunk_func_returns_iff
        (K : kernel) (mem : memory) (p end_ : nat) (s : Z * Z) :
  (exists fuel, chunk_func K fuel mem p end_ s <> None) <->
  exists k, (1 <= k)%nat /\ end_ = (p + IMPL_SEGMENT_SIZE K * k)%nat.
Proof.
  assert (E : forall fuel,
             chunk_func K fuel mem p end_ s <> None <->
             match K with
             | SSE2 => sse2_loop fuel mem p end_ <> None
             | AVX2 => avx2_loop fuel mem p end_ <> None
             | AVX512BW => avx512bw_loop fuel mem p end_ <> None
             end).
  { intros fuel. rewrite chunk_func_none_iff. destruct K; reflexivity. }
  transitivity
    (exists fuel,
        match K with
        | SSE2 => sse2_loop fuel mem p end_ <> None
        | AVX2 => avx2_loop fuel mem p end_ <> None
        | AVX512BW => avx512bw_loop fuel mem p end_ <> None
        end).
  { split; intros [fuel H]; exists fuel; apply E; exact H. }
  destruct K; cbn [IMPL_SEGMENT_SIZE].
  - apply (loop_returns_iff (sse2_body mem) Sse2.p); [lia|].
    intros j. now rewrite sse2_iter.
  - apply (loop_returns_iff (avx2_body mem) Wide.p); [lia|].
    intros j. now rewrite avx2_iter.
  - apply (loop_returns_iff (avx512bw_body mem) Wide.p); [lia|].
    intros j. now rewrite avx512bw_iter.
Qed.

(** ** The AVX2 and AVX-512BW kernels on every chunk *)

Lemma sumZ_even_odd (B : nat -> Z) m :
  sumZ B (2 * m)
  = sumZ (fun h => B (2 * h)%nat) m + sumZ (fun h => B (2 * h + 1)%nat) m.
Proof.
  induction m as [|m IH]; [reflexivity|].
  replace (2 * S m)%nat with (S (S (2 * m))) by lia.
  cbn [sumZ]. rewrite IH.
  replace (S (2 * m)) with (2 * m + 1)%nat by lia. ring.
Qed.

(** X2: on a chunk of any number [k >= 1] of 32-byte segments, with no
    upper limit on its length, the AVX2 kernel adds to s2 what scalar
    processing adds (byte [j] of [n] times [n - j], modulo 2^32), and
    adds to s1 the bytes of even position only; it therefore leaves the
    counters of scalar processing when every byte of odd position is
    zero. *)
Theorem X2_adler32_avx2_chunk_result
        (mem : memory) (p k fuel : nat) (s : Z * Z) :
  (1 <= k)%nat -> (k <= fuel)%nat ->
  let B := chunk_byte mem p in
  adler32_avx2_chunk fuel mem p (p + 32 * k) s
  = Some (u32 (fst s + sumZ (fun h => B (2 * h)%nat) (16 * k)),
          u32 (snd s + scalar_s2_gain B (32 * k))) /\
  ((forall h, (h < 16 * k)%nat -> B (2 * h + 1)%nat = 0) ->
   adler32_avx2_chunk fuel mem p (p + 32 * k) s
   = Some (scalar_chunk mem p (32 * k) s)).
Proof.
  intros Hk Hfuel B. subst B.
  assert (E : adler32_avx2_chunk fuel mem p (p + 32 * k) s
              = Some (u32 (fst s + sumZ (fun h => chunk_byte mem p (2 * h)%nat)
                                        (16 * k)),
                      u32 (snd s + scalar_s2_gain (chunk_byte mem p)
                                                  (32 * k)))).
  { rewrite adler32_avx2_chunk_gain by exact Hk.
    rewrite (proj2 (Nat.leb_le _ _) Hfuel).
    pose proof (kernel_s2_gain_exact AVX2 (chunk_byte mem p) k) as E2.
    cbn [IMPL_SEGMENT_SIZE] in E2. rewrite E2 by discriminate.
    reflexivity. }
  split; [exact E|].
  intros Hodd. rewrite E. unfold scalar_chunk, scalar_s1_gain.
  replace (32 * k)%nat with (2 * (16 * k))%nat at 2 by lia.
  rewrite sumZ_even_odd.
  rewrite (sumZ_ext (fun h => chunk_byte mem p (2 * h + 1)) (fun _ => 0))
    by exact Hodd.
  rewrite sumZ_zero, Z.add_0_r. reflexivity.
Qed.

Lemma X2_adler32_avx2_chunk_result_witness :
  adler32_avx2_chunk 2 (mem_of_list [x05; x00; x07]) 0 (0 + 32 * 2) (1, 0)
  = Some (scalar_chunk (mem_of_list [x05; x00; x07]) 0 (32 * 2) (1, 0)).
Proof.
  refine (proj2 (X2_adler32_avx2_chunk_result
                   (mem_of_list [x05; x00; x07]) 0 2 2 (1, 0) _ _) _).
  - lia.
  - lia.
  - intros h _. unfold chunk_byte, mem_of_list.
    destruct h as [|[|h]]; [reflexivity| reflexivity|].
    replace (0 + (2 * S (S h) + 1))%nat with (S (S (S (2 * h + 2)))) by lia.
    cbn [nth]. destruct (2 * h + 2)%nat; reflexivity.
Defined.

Lemma seg_weight_32_64 k j :
  seg_weight 32 64 k j
  = (Z.of_nat (64 * k) - Z.of_nat j)
    + (-32) * (Z.of_nat k - 1 - Z.of_nat (j / 64)).
Proof.
  rewrite <- (seg_weight_exact 64 k j). unfold seg_weight.
  change (Z.of_nat 64) with 64. ring.
Qed.

(** X3: on a chunk of any number [k >= 1] of 64-byte segments the
    AVX-512BW kernel adds to s1 the bytes of even position only, and
    adds to s2 what scalar processing adds less 32 times the sum of
    each byte times the number of segments that follow its own; on a
    chunk of one segment its s2 is that of scalar processing. *)
Theorem X3_adler32_avx512bw_chunk_result
        (mem : memory) (p k fuel : nat) (s : Z * Z) :
  (1 <= k)%nat -> (k <= fuel)%nat ->
  let B := chunk_byte mem p in
  let short := sumZ (fun j => (Z.of_nat k - 1 - Z.of_nat (j / 64)) * B j)
                    (64 * k) in
  adler32_avx512bw_chunk fuel mem p (p + 64 * k) s
  = Some (u32 (fst s + sumZ (fun h => B (2 * h)%nat) (32 * k)),
          u32 (snd s + (scalar_s2_gain B (64 * k) - 32 * short))) /\
  0 <= short /\
  (k = 1%nat -> short = 0).
Proof.
  intros Hk Hfuel B short. split; [|split].
  - rewrite adler32_avx512bw_chunk_gain by exact Hk.
    rewrite (proj2 (Nat.leb_le _ _) Hfuel).
    cbn [kernel_s1_gain kernel_s2_gain]. fold B.
    do 4 f_equal. unfold scalar_s2_gain, short.
    rewrite (sumZ_ext (fun j => seg_weight 32 64 k j * B j)
               (fun j => (Z.of_nat (64 * k) - Z.of_nat j) * B j
                         + (-32) * ((Z.of_nat k - 1 - Z.of_nat (j / 64))
                                    * B j)))
      by (intros j _; rewrite seg_weight_32_64; ring).
    rewrite (sumZ_add (fun j => (Z.of_nat (64 * k) - Z.of_nat j) * B j)),
      sumZ_scale.
    ring.
  - unfold short.
    pose proof (sumZ_bounds
                  (fun j => (Z.of_nat k - 1 - Z.of_nat (j / 64)) * B j)
                  (64 * k) 0 (Z.of_nat k * 255)) as Hb.
    assert (Hterm : forall j, (j < 64 * k)%nat ->
                      0 <= (Z.of_nat k - 1 - Z.of_nat (j / 64)) * B j
                      <= Z.of_nat k * 255).
    { intros j Hj.
      pose proof (chunk_byte_range mem p j) as HB. fold B in HB.
      assert (j / 64 < k)%nat by (apply Nat.Div0.div_lt_upper_bound; lia).
      nia. }
    specialize (Hb Hterm). lia.
  - intros ->. unfold short.
    rewrite (sumZ_ext _ (fun _ => 0)); [apply sumZ_zero|].
    intros j Hj. rewrite Nat.div_small by lia. reflexivity.
Qed.

Lemma X3_adler32_avx512bw_chunk_result_witness :
  let B := chunk_byte (fun _ => xff) 0 in
  adler32_avx512bw_chunk 2 (fun _ => xff) 0 (0 + 64 * 2) (1, 0)
  = Some (u32 (fst (1, 0) + sumZ (fun h => B (2 * h)%nat) (32 * 2)),
          u32 (snd (1, 0)
               + (scalar_s2_gain B (64 * 2)
                  - 32 * sumZ (fun j => (Z.of_nat 2 - 1 - Z.of_nat (j / 64))
                                        * B j) (64 * 2)))).
Proof.
  refine (proj1 (X3_adler32_avx512bw_chunk_result
                   (fun _ => xff) 0 2 2 (1, 0) _ _)); lia.
Defined.

(** ** The SSE2 kernel beyond its maximum chunk size *)

Lemma sse2_finish_lanes_s16 (C P : nat -> Z) p0 s :
  (forall o, (o < 32)%nat -> 0 <= C o <= 32767) ->
  let r :=
    {| Sse2.p := p0;
       Sse2.v_s1 := [u32 (sad_cols C 0); 0; u32 (sad_cols C 1); 0];
       Sse2.v_s2 := [u32 (sad_cols P 0); 0; u32 (sad_cols P 1); 0];
       Sse2.v_byte_sums_a := lanes16 (fun i => C i) 8;
       Sse2.v_byte_sums_b := lanes16 (fun i => C (8 + i)%nat) 8;
       Sse2.v_byte_sums_c := lanes16 (fun i => C (16 + i)%nat) 8;
       Sse2.v_byte_sums_d := lanes16 (fun i => C (24 + i)%nat) 8 |} in
  ADLER32_FINISH_VEC_CHUNK_128 s (Sse2.v_s1 r) (sse2_final_v_s2 r)
  = (u32 (fst s + sumZ C 32),
     u32 (snd s + sumZ (fun o => 32 * P o + (32 - Z.of_nat o) * C o) 32)).
Proof.
  intros HC r. unfold r, sse2_final_v_s2.
  cbn [Sse2.v_s1 Sse2.v_s2 Sse2.v_byte_sums_a Sse2.v_byte_sums_b
       Sse2.v_byte_sums_c Sse2.v_byte_sums_d].
  unfold lanes16, sse2_weights_a, sse2_weights_b, sse2_weights_c,
    sse2_weights_d, _mm_slli_epi32, slli_epi32.
  cbn [seq map _mm_madd_epi16 Nat.add].
  assert (H16 : forall o, (o < 32)%nat -> u16 (C o) = C o).
  { intros o Ho. apply u16_small. specialize (HC o Ho). lia. }
  assert (Hs : forall o, (o < 32)%nat -> s16 (C o) = C o).
  { intros o Ho. apply s16_small. specialize (HC o Ho). lia. }
  rewrite !H16 by lia. rewrite !Hs by lia.
  rewrite !s16_small by lia.
  unfold vadd32. cbn [map2].
  rewrite finish_128_lanes.
  unfold sad_cols. cbn [sumZ Nat.add Nat.mul].
  rewrite !Z.shiftl_mul_pow2 by lia.
  change (2 ^ 5) with 32.
  cbn [Z.of_nat Pos.of_succ_nat Pos.succ].
  f_equal; u32_eq.
Qed.

(** X4: the SSE2 kernel leaves the counters of scalar processing on a
    chunk of any number [k >= 1] of 32-byte segments, also above
    [IMPL_MAX_CHUNK_SIZE], as long as none of the thirty-two 16-bit
    byte-sum counters, each the sum of the bytes at one offset of every
    segment, goes above 0x7FFF. *)
Theorem X4_adler32_sse2_chunk_small_sums
        (mem : memory) (p k fuel : nat) (s : Z * Z) :
  (1 <= k)%nat -> (k <= fuel)%nat ->
  (forall o, (o < 32)%nat ->
             sumZ (fun t => chunk_byte mem p (32 * t + o)) k <= 0x7FFF) ->
  adler32_sse2_chunk fuel mem p (p + 32 * k) s
  = Some (scalar_chunk mem p (32 * k) s).
Proof.
  intros Hk Hfuel Hsum. unfold adler32_sse2_chunk.
  rewrite sse2_loop_exact by exact Hk.
  rewrite (proj2 (Nat.leb_le _ _) Hfuel).
  f_equal. unfold scalar_chunk, scalar_s1_gain, scalar_s2_gain.
  rewrite (sumZ_ext (fun j => (Z.of_nat (32 * k) - Z.of_nat j)
                              * chunk_byte mem p j)
                    (fun j => seg_weight 32 32 k j * chunk_byte mem p j))
    by (intros j _; rewrite <- (seg_weight_exact 32 k j); reflexivity).
  rewrite <- col_sum_total, <- weighted_columns.
  apply (sse2_finish_lanes_s16 (col_sum (chunk_byte mem p) 32 k)
                               (col_presum (chunk_byte mem p) 32 k)).
  intros o Ho. split.
  - apply (col_sum_bounds (chunk_byte mem p) 32 k o 255).
    apply chunk_byte_range.
  - exact (Hsum o Ho).
Qed.

(** 8192 bytes of value 127, twice the maximum chunk size. *)
Lemma X4_adler32_sse2_chunk_small_sums_witness :
  adler32_sse2_chunk 256 (fun _ => x7f) 0 (0 + 32 * 256) (1, 0)
  = Some (scalar_chunk (fun _ => x7f) 0 (32 * 256) (1, 0)).
Proof.
  refine (X4_adler32_sse2_chunk_small_sums (fun _ => x7f) 0 256 256 (1, 0)
            _ _ _).
  - lia.
  - lia.
  - intros o _.
    pose proof (sumZ_bounds (fun t => chunk_byte (fun _ => x7f) 0 (32 * t + o))
                  256 127 127) as Hb.
    assert (Z.of_nat 256 * 127 <= 0x7FFF) by (vm_compute; discriminate).
    enough (sumZ (fun t => chunk_byte (fun _ => x7f) 0 (32 * t + o)) 256
            <= Z.of_nat 256 * 127) by lia.
    apply Hb. intros i _. vm_compute. split; discriminate.
Defined.

(** ** No wrap-around of the 32-bit counters *)

Lemma sumZ_le f g n :
  (forall i, (i < n)%nat -> f i <= g i) -> sumZ f n <= sumZ g n.
Proof.
  induction n as [|n IH]; intros H; cbn [sumZ]; [lia|].
  specialize (IH (fun i Hi => H i (Nat.lt_lt_succ_r _ _ Hi))).
  specialize (H n (Nat.lt_succ_diag_r n)). lia.
Qed.

Lemma sumZ_const c n : sumZ (fun _ => c) n = Z.of_nat n * c.
Proof. induction n as [|n IH]; cbn [sumZ]; [|rewrite IH]; lia. Qed.

Lemma sumZ_descending n :
  2 * sumZ (fun j => Z.of_nat n - Z.of_nat j) n
  = Z.of_nat n * (Z.of_nat n + 1).
Proof.
  induction n as [|n IH]; [reflexivity|].
  cbn [sumZ].
  rewrite (sumZ_ext (fun j => Z.of_nat (S n) - Z.of_nat j)
                    (fun j => (Z.of_nat n - Z.of_nat j) + 1))
    by (intros; lia).
  rewrite sumZ_add, sumZ_const. lia.
Qed.

Lemma scalar_gain_bounds mem p n :
  0 <= scalar_s1_gain (chunk_byte mem p) n <= 255 * Z.of_nat n /\
  0 <= 2 * scalar_s2_gain (chunk_byte mem p) n
    <= 255 * (Z.of_nat n * (Z.of_nat n + 1)).
Proof.
  unfold scalar_s1_gain, scalar_s2_gain. split.
  - pose proof (sumZ_bounds (chunk_byte mem p) n 0 255
                  (fun i _ => chunk_byte_range mem p i)).
    lia.
  - pose proof (sumZ_le (fun _ => 0)
                  (fun j => (Z.of_nat n - Z.of_nat j) * chunk_byte mem p j) n)
      as Hlo.
    pose proof (sumZ_le
                  (fun j => (Z.of_nat n - Z.of_nat j) * chunk_byte mem p j)
                  (fun j => 255 * (Z.of_nat n - Z.of_nat j)) n) as Hhi.
    rewrite sumZ_zero in Hlo. rewrite sumZ_scale in Hhi.
    pose proof (sumZ_descending n).
    assert (Hterm : forall j, (j < n)%nat ->
                      0 <= (Z.of_nat n - Z.of_nat j) * chunk_byte mem p j
                      <= 255 * (Z.of_nat n - Z.of_nat j)).
    { intros j Hj. pose proof (chunk_byte_range mem p j). nia. }
    specialize (Hlo (fun j Hj => proj1 (Hterm j Hj))).
    specialize (Hhi (fun j Hj => proj2 (Hterm j Hj))).
    lia.
Qed.

(** X5: on a valid chunk the SSE2 kernel adds at most 255 * 4096 to s1
    and at most 255 * 4096 * 4097 / 2 to s2; when the incoming counters
    leave that much room below 2^32, as counters below 65521 do, the
    counters written back are the exact sums of scalar processing,
    without any wrap-around of the 32-bit words. *)
Theorem X5_adler32_sse2_chunk_no_wrap
        (MAX_CHUNK_SIZE : nat) (mem : memory) (p n fuel : nat) (s1 s2 : Z) :
  valid_chunk MAX_CHUNK_SIZE SSE2 n ->
  (n / 32 <= fuel)%nat ->
  0 <= s1 <= 2 ^ 32 - 1 - 255 * 4096 ->
  0 <= s2 <= 2 ^ 32 - 1 - 255 * (4096 * 4097 / 2) ->
  let g1 := scalar_s1_gain (chunk_byte mem p) n in
  let g2 := scalar_s2_gain (chunk_byte mem p) n in
  adler32_sse2_chunk fuel mem p (p + n) (s1, s2) = Some (s1 + g1, s2 + g2) /\
  0 <= g1 <= 255 * 4096 /\
  0 <= g2 <= 255 * (4096 * 4097 / 2) /\
  s1 + g1 < 2 ^ 32 /\ s2 + g2 < 2 ^ 32.
Proof.
  intros Hv Hfuel Hs1 Hs2 g1 g2.
  destruct (scalar_gain_bounds mem p n) as [Hg1 Hg2].
  fold g1 in Hg1. fold g2 in Hg2.
  assert (Hn : (n <= 4096)%nat).
  { destruct Hv as (_ & _ & Hmax). cbn [IMPL_MAX_CHUNK_SIZE] in Hmax.
    change (Z.to_nat (32 * (32767 / 255))) with 4096%nat in Hmax.
    exact Hmax. }
  change (4096 * 4097 / 2) with 8390656 in *.
  assert (Hg1' : 0 <= g1 <= 255 * 4096) by lia.
  assert (Hg2' : 0 <= g2 <= 255 * 8390656) by nia.
  split; [|repeat split; lia].
  rewrite (adler32_sse2_chunk_scalar MAX_CHUNK_SIZE) by assumption.
  unfold scalar_chunk. cbn [fst snd]. fold g1 g2.
  rewrite !u32_small by lia. reflexivity.
Qed.

Lemma X5_adler32_sse2_chunk_no_wrap_witness :
  adler32_sse2_chunk 128 (fun _ => xff) 0 (0 + 4096) (65520, 65520)
  = Some (65520 + scalar_s1_gain (chunk_byte (fun _ => xff) 0) 4096,
          65520 + scalar_s2_gain (chunk_byte (fun _ => xff) 0) 4096).
Proof.
  refine (proj1 (X5_adler32_sse2_chunk_no_wrap
                   4096 (fun _ => xff) 0 4096 128 65520 65520
                   _ _ _ _)).
  - unfold valid_chunk. cbn. lia.
  - cbn. lia.
  - lia.
  - change (4096 * 4097 / 2) with 8390656. lia.
Defined.

(** ** Consecutive chunks *)

Lemma adler32_sse2_chunk_scalar_segments mem p k fuel s :
  (1 <= k <= 128)%nat -> (k <= fuel)%nat ->
  adler32_sse2_chunk fuel mem p (p + 32 * k) s
  = Some (scalar_chunk mem p (32 * k) s).
Proof.
  intros Hk Hfuel.
  rewrite adler32_sse2_chunk_gain by exact Hk.
  rewrite (proj2 (Nat.leb_le _ _) Hfuel).
  pose proof (kernel_s2_gain_exact SSE2 (chunk_byte mem p) k) as E.
  cbn [IMPL_SEGMENT_SIZE] in E. rewrite E by discriminate.
  reflexivity.
Qed.

Lemma scalar_gain_concat (B : nat -> Z) n1 n2 :
  let B' := fun i => B (n1 + i)%nat in
  scalar_s1_gain B (n1 + n2) = scalar_s1_gain B n1 + scalar_s1_gain B' n2 /\
  scalar_s2_gain B (n1 + n2)
  = scalar_s2_gain B n1 + Z.of_nat n2 * scalar_s1_gain B n1
    + scalar_s2_gain B' n2.
Proof.
  intros B'. unfold scalar_s1_gain, scalar_s2_gain. split.
  - apply sumZ_split.
  - rewrite sumZ_split.
    rewrite (sumZ_ext (fun j => (Z.of_nat (n1 + n2) - Z.of_nat j) * B j)
                      (fun j => (Z.of_nat n1 - Z.of_nat j) * B j
                                + Z.of_nat n2 * B j))
      by (intros; rewrite Nat2Z.inj_add; ring).
    rewrite (sumZ_add (fun j => (Z.of_nat n1 - Z.of_nat j) * B j)),
      sumZ_scale.
    f_equal. apply sumZ_ext. intros i _. unfold B'.
    rewrite !Nat2Z.inj_add. f_equal. ring.
Qed.

Lemma chunk_byte_shift mem p n i :
  chunk_byte mem (p + n) i = chunk_byte mem p (n + i).
Proof. unfold chunk_byte. f_equal. f_equal. lia. Qed.

(** X6: a chunk of [k1 + k2] segments against its two parts, for the
    SSE2 kernel.  With (c1, c2) what the kernel adds for the first
    [k1] segments and (d1, d2) what it adds for the last [k2], both
    taken from zero counters, on the whole chunk it adds [c1 + d1] to
    s1 and [c2 + d2 + n2 * c1] to s2, [n2] the length of the second
    part in bytes: going through a chunk in two calls gives the result
    of one call once [n2 * c1] is added to s2 in between. *)
Theorem X6_adler32_sse2_chunk_concat
        (mem : memory) (p k1 k2 fuel : nat) (s1 s2 : Z) :
  (1 <= k1)%nat -> (1 <= k2)%nat -> (k1 + k2 <= 128)%nat ->
  (k1 + k2 <= fuel)%nat ->
  let n1 := (32 * k1)%nat in
  let n2 := (32 * k2)%nat in
  exists c1 c2 d1 d2,
    adler32_sse2_chunk fuel mem p (p + n1) (0, 0) = Some (c1, c2) /\
    adler32_sse2_chunk fuel mem (p + n1) (p + n1 + n2) (0, 0)
    = Some (d1, d2) /\
    adler32_sse2_chunk fuel mem p (p + (n1 + n2)) (s1, s2)
    = Some (u32 (s1 + c1 + d1), u32 (s2 + c2 + d2 + Z.of_nat n2 * c1)).
Proof.
  intros Hk1 Hk2 Hk Hfuel n1 n2. subst n1 n2.
  rewrite !adler32_sse2_chunk_scalar_segments by lia.
  replace (32 * k1 + 32 * k2)%nat with (32 * (k1 + k2))%nat by lia.
  rewrite adler32_sse2_chunk_scalar_segments by lia.
  replace (32 * (k1 + k2))%nat with (32 * k1 + 32 * k2)%nat by lia.
  unfold scalar_chunk. cbn [fst snd].
  do 4 eexists. split; [reflexivity|]. split; [reflexivity|].
  destruct (scalar_gain_concat (chunk_byte mem p) (32 * k1) (32 * k2))
    as [E1 E2].
  assert (F1 : scalar_s1_gain (chunk_byte mem (p + 32 * k1)) (32 * k2)
               = scalar_s1_gain (fun i => chunk_byte mem p (32 * k1 + i))
                                (32 * k2)).
  { apply sumZ_ext. intros. apply chunk_byte_shift. }
  assert (F2 : scalar_s2_gain (chunk_byte mem (p + 32 * k1)) (32 * k2)
               = scalar_s2_gain (fun i => chunk_byte mem p (32 * k1 + i))
                                (32 * k2)).
  { apply sumZ_ext. intros. rewrite chunk_byte_shift. reflexivity. }
  rewrite F1, F2, E1, E2.
  f_equal. f_equal; u32_eq.
Qed.

Lemma X6_adler32_sse2_chunk_concat_witness :
  exists c1 c2 d1 d2,
    adler32_sse2_chunk 3 (fun _ => xff) 0 (0 + 32 * 1) (0, 0)
    = Some (c1, c2) /\
    adler32_sse2_chunk 3 (fun _ => xff) (0 + 32 * 1) (0 + 32 * 1 + 32 * 2)
                       (0, 0)
    = Some (d1, d2) /\
    adler32_sse2_chunk 3 (fun _ => xff) 0 (0 + (32 * 1 + 32 * 2)) (1, 0)
    = Some (u32 (1 + c1 + d1),
            u32 (0 + c2 + d2 + Z.of_nat (32 * 2) * c1)).
Proof.
  refine (X6_adler32_sse2_chunk_concat (fun _ => xff) 0 1 2 3 1 0 _ _ _ _);
    lia.
Defined.

(** ** The dispatcher and the capability bits *)

Lemma has_feature_mono features features' mask :
  Z.land features features' = features ->
  has_feature features mask = true -> has_feature features' mask = true.
Proof.
  unfold has_feature. intros Hsub H.
  apply negb_true_iff, Z.eqb_neq in H. apply negb_true_iff, Z.eqb_neq.
  intros E. apply H.
  rewrite <- Hsub, <- Z.land_assoc, E. apply Z.land_0_r.
Qed.

Lemma eligible_mono cfg masks features features' f :
  Z.land features features' = features ->
  eligible cfg masks features f = true ->
  eligible cfg masks features' f = true.
Proof.
  unfold eligible. intros Hsub H.
  apply andb_true_iff in H. destruct H as [Hc Hf].
  rewrite Hc. cbn [andb]. now apply (has_feature_mono features).
Qed.

Lemma arch_select_eligible cfg masks features :
  arch_select_adler32_func cfg masks features
  = if eligible cfg masks features adler32_avx512bw
    then Some adler32_avx512bw
    else if eligible cfg masks features adler32_avx2
         then Some adler32_avx2
         else if eligible cfg masks features adler32_sse2
              then Some adler32_sse2
              else None.
Proof. reflexivity. Qed.

(** X7: a capability bitset with more bits set never makes the
    dispatcher choose a narrower kernel: when every bit of [features]
    is also set in [features'], the vector width of the kernel returned
    for [features'] is at least that of the kernel returned for
    [features] (a [NULL] result counting as width 0). *)
Theorem X7_dispatch_monotone
        (cfg : dispatch_config) (masks : feature_masks)
        (features features' : Z) :
  Z.land features features' = features ->
  (selected_width (arch_select_adler32_func cfg masks features)
   <= selected_width (arch_select_adler32_func cfg masks features'))%nat.
Proof.
  intros Hsub. rewrite !arch_select_eligible.
  pose proof (eligible_mono cfg masks features features' adler32_avx512bw Hsub)
    as M512.
  pose proof (eligible_mono cfg masks features features' adler32_avx2 Hsub)
    as M2.
  pose proof (eligible_mono cfg masks features features' adler32_sse2 Hsub)
    as Ms.
  destruct (eligible cfg masks features adler32_avx512bw).
  { rewrite M512 by reflexivity. cbn. lia. }
  destruct (eligible cfg masks features' adler32_avx512bw);
    [destruct (eligible cfg masks features adler32_avx2);
     [|destruct (eligible cfg masks features adler32_sse2)]; cbn; lia|].
  destruct (eligible cfg masks features adler32_avx2).
  { rewrite M2 by reflexivity. cbn. lia. }
  destruct (eligible cfg masks features' adler32_avx2);
    [destruct (eligible cfg masks features adler32_sse2); cbn; lia|].
  destruct (eligible cfg masks features adler32_sse2).
  { rewrite Ms by reflexivity. cbn. lia. }
  destruct (eligible cfg masks features' adler32_sse2); cbn; lia.
Qed.

Lemma X7_dispatch_monotone_witness :
  let cfg := {| DISPATCH_AVX512BW := true; DISPATCH_AVX2 := true;
                DISPATCH_SSE2 := true |} in
  let masks := {| X86_CPU_FEATURE_SSE2 := 0x1; X86_CPU_FEATURE_AVX2 := 0x8;
                  X86_CPU_FEATURE_AVX512BW := 0x20 |} in
  (selected_width (arch_select_adler32_func cfg masks 0x1)
   <= selected_width (arch_select_adler32_func cfg masks 0x29))%nat.
Proof.
  intros cfg masks.
  refine (X7_dispatch_monotone cfg masks 0x1 0x29 _).
  reflexivity.
Defined.

Lemma has_feature_restrict features all mask :
  Z.land all mask = mask ->
  has_feature (Z.land features all) mask = has_feature features mask.
Proof.
  intros H. unfold has_feature. now rewrite <- Z.land_assoc, H.
Qed.

Lemma land_lor3_absorb a b c :
  Z.land (Z.lor (Z.lor a b) c) a = a /\
  Z.land (Z.lor (Z.lor a b) c) b = b /\
  Z.land (Z.lor (Z.lor a b) c) c = c.
Proof.
  repeat split; apply Z.bits_inj'; intros n _;
    rewrite Z.land_spec, !Z.lor_spec;
    destruct (Z.testbit a n), (Z.testbit b n), (Z.testbit c n); reflexivity.
Qed.

(** X8: the dispatcher looks at no bit of the capability bitset other
    than those of the three feature masks: clearing every other bit
    leaves its result unchanged. *)
Theorem X8_dispatch_ignores_other_bits
        (cfg : dispatch_config) (masks : feature_masks) (features : Z) :
  let relevant := Z.lor (Z.lor (X86_CPU_FEATURE_AVX512BW masks)
                               (X86_CPU_FEATURE_AVX2 masks))
                        (X86_CPU_FEATURE_SSE2 masks) in
  arch_select_adler32_func cfg masks (Z.land features relevant)
  = arch_select_adler32_func cfg masks features.
Proof.
  intros relevant. unfold arch_select_adler32_func.
  destruct (land_lor3_absorb (X86_CPU_FEATURE_AVX512BW masks)
                             (X86_CPU_FEATURE_AVX2 masks)
                             (X86_CPU_FEATURE_SSE2 masks)) as (A & B & C).
  fold relevant in A, B, C.
  rewrite !has_feature_restrict by assumption. reflexivity.
Qed.

(** ** Conditional compilation of the kernels *)

(** Settles a goal about wider kernels once every flag has a value. *)
Ltac use_wider :=
  repeat match goal with
         | H : forall f', (_ < vector_width f')%nat -> _ |- _ =>
             pose proof (H adler32_avx512bw);
             pose proof (H adler32_avx2);
             pose proof (H adler32_sse2);
             clear H
         end;
  cbn [vector_width isa_defined defined_AVX512BW defined_AVX2 defined_SSE2]
    in *;
  repeat match goal with
         | H : (?a < ?b)%nat -> _ |- _ =>
             first [ specialize (H ltac:(lia)) | clear H ]
         end.

Ltac by_flags env m :=
  destruct env as [i512 i2 i1 fe t512 t2 t1];
  destruct m as [di d cfg funcs];
  cbn [DEFAULT_IMPL DISPATCH dispatch_macros defined_funcs] in *;
  subst;
  unfold adler32_impl_h, impl_block;
  cbn [DEFAULT_IMPL DISPATCH dispatch_macros defined_funcs isa_defined
       target_intrinsics X86_CPU_FEATURES_ENABLED
       defined_AVX512BW defined_AVX2 defined_SSE2
       COMPILER_SUPPORTS_AVX512BW_TARGET_INTRINSICS
       COMPILER_SUPPORTS_AVX2_TARGET_INTRINSICS
       COMPILER_SUPPORTS_SSE2_TARGET_INTRINSICS].

(** X9: read with [DEFAULT_IMPL] not yet defined, the file defines it
    as kernel [f] if and only if the instruction set of [f] is enabled
    at compile time ([__AVX512BW__], [__AVX2__] or [__SSE2__] defined)
    and that of no wider kernel is: the default implementation is the
    widest kernel that needs no run-time detection, and there is none
    when no such macro is defined. *)
Theorem X9_default_impl_is_widest_static
        (env : build_env) (m : macros) (f : adler32_func_t) :
  DEFAULT_IMPL m = None ->
  (DEFAULT_IMPL (adler32_impl_h env m) = Some f <->
   isa_defined env f = true /\
   forall f', (vector_width f < vector_width f')%nat ->
              isa_defined env f' = false).
Proof.
  intros H0. by_flags env m.
  destruct i512, i2, i1, fe, t512, t2, t1, f;
    cbn; (split;
          [ intros H;
            first [ discriminate H
                  | split;
                    [ reflexivity
                    | intros f' Hw; destruct f'; cbn in Hw |- *;
                      first [reflexivity | lia] ] ]
          | intros [H1 H2];
            first [ discriminate H1
                  | use_wider; first [reflexivity | discriminate] ] ]).
Qed.

Lemma X9_default_impl_is_widest_static_witness :
  let env := {| defined_AVX512BW := false; defined_AVX2 := true;
                defined_SSE2 := true; X86_CPU_FEATURES_ENABLED := true;
                COMPILER_SUPPORTS_AVX512BW_TARGET_INTRINSICS := true;
                COMPILER_SUPPORTS_AVX2_TARGET_INTRINSICS := true;
                COMPILER_SUPPORTS_SSE2_TARGET_INTRINSICS := true |} in
  DEFAULT_IMPL (adler32_impl_h env no_macros) = Some adler32_avx2.
Proof.
  intros env.
  apply (proj2 (X9_default_impl_is_widest_static
                  env no_macros adler32_avx2 eq_refl)).
  split; [reflexivity|].
  intros f' Hw. destruct f'; cbn in Hw |- *; first [reflexivity | lia].
Defined.

(** X10: read with [DEFAULT_IMPL] not yet defined, the file defines
    [DISPATCH_f] for kernel [f] if and only if the instruction set of
    [f] is not enabled at compile time, run-time feature detection is
    enabled, the compiler supports the target intrinsics of [f], and no
    wider instruction set is enabled at compile time; whether
    [DISPATCH_f] was defined before the file is read plays no part. *)
Theorem X10_dispatch_macro_defined_iff
        (env : build_env) (m : macros) (f : adler32_func_t) :
  DEFAULT_IMPL m = None ->
  (compiled_in (dispatch_macros (adler32_impl_h env m)) f = true <->
   isa_defined env f = false /\
   X86_CPU_FEATURES_ENABLED env = true /\
   target_intrinsics env f = true /\
   forall f', (vector_width f < vector_width f')%nat ->
              isa_defined env f' = false).
Proof.
  intros H0. by_flags env m.
  destruct cfg as [c512 c2 c1].
  destruct i512, i2, i1, fe, t512, t2, t1, f;
    cbn; (split;
          [ intros H;
            first [ discriminate H
                  | repeat (split; [reflexivity|]);
                    intros f' Hw; destruct f'; cbn in Hw |- *;
                    first [reflexivity | lia] ]
          | intros (H1 & H2 & H3 & H4);
            first [ discriminate H1 | discriminate H2 | discriminate H3
                  | use_wider; first [reflexivity | discriminate] ] ]).
Qed.

Lemma X10_dispatch_macro_defined_iff_witness :
  let env := {| defined_AVX512BW := false; defined_AVX2 := false;
                defined_SSE2 := true; X86_CPU_FEATURES_ENABLED := true;
                COMPILER_SUPPORTS_AVX512BW_TARGET_INTRINSICS := false;
                COMPILER_SUPPORTS_AVX2_TARGET_INTRINSICS := true;
                COMPILER_SUPPORTS_SSE2_TARGET_INTRINSICS := true |} in
  compiled_in (dispatch_macros (adler32_impl_h env no_macros)) adler32_avx2
  = true.
Proof.
  intros env.
  apply (proj2 (X10_dispatch_macro_defined_iff
                  env no_macros adler32_avx2 eq_refl)).
  repeat (split; [reflexivity|]).
  intros f' Hw. destruct f'; cbn in Hw |- *; first [reflexivity | lia].
Defined.

Lemma arch_select_compiled_in cfg masks features f :
  arch_select_adler32_func cfg masks features = Some f ->
  compiled_in cfg f = true.
Proof.
  unfold arch_select_adler32_func.
  destruct (DISPATCH_AVX512BW cfg) eqn:E512; cbn [andb].
  { destruct (has_feature features (X86_CPU_FEATURE_AVX512BW masks)).
    - intros H. inversion H. exact E512.
    - destruct (DISPATCH_AVX2 cfg) eqn:E2; cbn [andb].
      { destruct (has_feature features (X86_CPU_FEATURE_AVX2 masks)).
        - intros H. inversion H. exact E2.
        - destruct (DISPATCH_SSE2 cfg) eqn:Es; cbn [andb]; [|discriminate].
          destruct (has_feature features (X86_CPU_FEATURE_SSE2 masks));
            [|discriminate].
          intros H. inversion H. exact Es. }
      destruct (DISPATCH_SSE2 cfg) eqn:Es; cbn [andb]; [|discriminate].
      destruct (has_feature features (X86_CPU_FEATURE_SSE2 masks));
        [|discriminate].
      intros H. inversion H. exact Es. }
  destruct (DISPATCH_AVX2 cfg) eqn:E2; cbn [andb].
  { destruct (has_feature features (X86_CPU_FEATURE_AVX2 masks)).
    - intros H. inversion H. exact E2.
    - destruct (DISPATCH_SSE2 cfg) eqn:Es; cbn [andb]; [|discriminate].
      destruct (has_feature features (X86_CPU_FEATURE_SSE2 masks));
        [|discriminate].
      intros H. inversion H. exact Es. }
  destruct (DISPATCH_SSE2 cfg) eqn:Es; cbn [andb]; [|discriminate].
  destruct (has_feature features (X86_CPU_FEATURE_SSE2 masks));
    [|discriminate].
  intros H. inversion H. exact Es.
Qed.

Lemma dispatch_macro_facts env m f :
  DEFAULT_IMPL m = None ->
  compiled_in (dispatch_macros (adler32_impl_h env m)) f = true ->
  In f (defined_funcs (adler32_impl_h env m)) /\
  DISPATCH (adler32_impl_h env m) = true /\
  isa_defined env f = false /\
  forall d, DEFAULT_IMPL (adler32_impl_h env m) = Some d ->
            (vector_width d < vector_width f)%nat.
Proof.
  intros H0. by_flags env m.
  destruct cfg as [c512 c2 c1].
  destruct i512, i2, i1, fe, t512, t2, t1, f;
    cbn; intros H;
    first [ discriminate H
          | repeat split;
            first [ reflexivity
                  | tauto
                  | intros d' Hd; inversion Hd; cbn; lia ] ].
Qed.

Lemma default_impl_defined env m g :
  DEFAULT_IMPL m = None ->
  DEFAULT_IMPL (adler32_impl_h env m) = Some g ->
  In g (defined_funcs (adler32_impl_h env m)).
Proof.
  intros H0. by_flags env m.
  destruct i512, i2, i1, fe, t512, t2, t1;
    cbn; intros H; first [discriminate H | inversion H; tauto].
Qed.

(** X11: read with [DEFAULT_IMPL] not yet defined, the file leaves
    macros under which every function that can be reached is defined:
    a kernel that [arch_select_adler32_func] returns has been compiled,
    under [#ifdef DISPATCH] the dispatcher itself has, that kernel's
    instruction set is not enabled at compile time, and it is wider
    than the default implementation, if there is one; the function
    that [DEFAULT_IMPL] names has been compiled too. *)
Theorem X11_dispatch_returns_compiled_wider_kernels
        (env : build_env) (m : macros) (masks : feature_masks)
        (features : Z) (f : adler32_func_t) :
  DEFAULT_IMPL m = None ->
  let m' := adler32_impl_h env m in
  (arch_select_adler32_func (dispatch_macros m') masks features = Some f ->
   In f (defined_funcs m') /\
   DISPATCH m' = true /\
   isa_defined env f = false /\
   forall d, DEFAULT_IMPL m' = Some d ->
             (vector_width d < vector_width f)%nat) /\
  (DEFAULT_IMPL m' = Some f -> In f (defined_funcs m')).
Proof.
  intros H0 m'. split.
  - intros H. apply arch_select_compiled_in in H.
    now apply dispatch_macro_facts.
  - now apply default_impl_defined.
Qed.

Lemma X11_dispatch_returns_compiled_wider_kernels_witness :
  let env := {| defined_AVX512BW := false; defined_AVX2 := false;
                defined_SSE2 := true; X86_CPU_FEATURES_ENABLED := true;
                COMPILER_SUPPORTS_AVX512BW_TARGET_INTRINSICS := true;
                COMPILER_SUPPORTS_AVX2_TARGET_INTRINSICS := true;
                COMPILER_SUPPORTS_SSE2_TARGET_INTRINSICS := true |} in
  let masks := {| X86_CPU_FEATURE_SSE2 := 0x1; X86_CPU_FEATURE_AVX2 := 0x8;
                  X86_CPU_FEATURE_AVX512BW := 0x20 |} in
  let m' := adler32_impl_h env no_macros in
  In adler32_avx2 (defined_funcs m') /\
  DISPATCH m' = true /\
  isa_defined env adler32_avx2 = false /\
  forall d, DEFAULT_IMPL m' = Some d ->
            (vector_width d < vector_width adler32_avx2)%nat.
Proof.
  intros env masks m'.
  refine (proj1 (X11_dispatch_returns_compiled_wider_kernels
                   env no_macros masks 0x9 adler32_avx2 _) _);
    reflexivity.
Defined.

(** ** The loads and the bounds of the buffer *)

(** A loop that is done under the bounds is the loop without them. *)
Lemma do_while_checked_done {St : Type} (ok : St -> bool)
      (body : St -> St) (cond : St -> bool) :
  forall fuel s r,
    do_while_checked ok body cond fuel s = Done r ->
    do_while body cond fuel s = Some r.
Proof.
  induction fuel as [|fuel IH]; intros s r H; [discriminate|].
  cbn [do_while_checked do_while] in *. cbv zeta in *.
  destruct (ok s); [|discriminate].
  destruct (cond (body s)).
  - now apply IH.
  - inversion H. reflexivity.
Qed.

Lemma do_while_checked_iter {St : Type} (ok : St -> bool)
      (body : St -> St) (cond : St -> bool) k :
  forall fuel s,
    (1 <= k)%nat ->
    (forall j, (j < k)%nat -> ok (Nat.iter j body s) = true) ->
    (forall j, (1 <= j < k)%nat -> cond (Nat.iter j body s) = true) ->
    cond (Nat.iter k body s) = false ->
    do_while_checked ok body cond fuel s =
      if (k <=? fuel)%nat then Done (Nat.iter k body s) else OutOfFuel.
Proof.
  induction k as [|k IH]; intros fuel s Hk Hok Hrun Hexit; [lia|].
  destruct fuel as [|fuel]; [reflexivity|].
  cbn [do_while_checked]. cbv zeta.
  pose proof (Hok 0%nat ltac:(lia)) as H0. simpl in H0. rewrite H0.
  destruct k as [|k].
  - simpl in Hexit. rewrite Hexit. reflexivity.
  - pose proof (Hrun 1%nat ltac:(lia)) as H1. simpl in H1. rewrite H1.
    rewrite IH.
    + change (S (S k) <=? S fuel)%nat with (S k <=? fuel)%nat.
      rewrite (Nat.iter_succ_r (S k)). reflexivity.
    + lia.
    + intros j Hj. rewrite <- Nat.iter_succ_r. apply Hok. lia.
    + intros j Hj. rewrite <- Nat.iter_succ_r. apply Hrun. lia.
    + rewrite <- Nat.iter_succ_r. exact Hexit.
Qed.

Lemma do_while_checked_fault {St : Type} (ok : St -> bool)
      (body : St -> St) (cond : St -> bool) t :
  forall fuel s,
    (t < fuel)%nat ->
    ok (Nat.iter t body s) = false ->
    (forall j, (1 <= j <= t)%nat -> cond (Nat.iter j body s) = true) ->
    do_while_checked ok body cond fuel s = Fault.
Proof.
  induction t as [|t IH]; intros fuel s Hfuel Hbad Hrun;
    (destruct fuel as [|fuel]; [lia|]); cbn [do_while_checked]; cbv zeta.
  - simpl in Hbad. rewrite Hbad. reflexivity.
  - destruct (ok s); [|reflexivity].
    pose proof (Hrun 1%nat ltac:(lia)) as H1. simpl in H1. rewrite H1.
    apply IH.
    + lia.
    + rewrite <- Nat.iter_succ_r. exact Hbad.
    + intros j Hj. rewrite <- Nat.iter_succ_r. apply Hrun. lia.
Qed.

Lemma readable_true lo hi addr n :
  readable lo hi addr n = true <-> (lo <= addr /\ addr + n <= hi)%nat.
Proof.
  unfold readable. rewrite andb_true_iff, !Nat.leb_le. reflexivity.
Qed.

Lemma avx2_loads_ok_iff lo hi r :
  avx2_loads_ok lo hi r = true <->
  (lo <= Wide.p r /\ Wide.p r + 40 <= hi)%nat.
Proof.
  unfold avx2_loads_ok. rewrite !andb_true_iff, !readable_true. lia.
Qed.

Lemma avx512bw_loads_ok_iff lo hi r :
  avx512bw_loads_ok lo hi r = true <->
  (lo <= Wide.p r /\ Wide.p r + 64 <= hi)%nat.
Proof.
  unfold avx512bw_loads_ok. rewrite !andb_true_iff, !readable_true. lia.
Qed.

Lemma sse2_loads_ok_iff lo hi r :
  sse2_loads_ok lo hi r = true <->
  (lo <= Sse2.p r /\ Sse2.p r + 32 <= hi)%nat.
Proof.
  unfold sse2_loads_ok. rewrite !andb_true_iff, !readable_true. lia.
Qed.

(** X12: the loop of the AVX2 kernel reads eight bytes past the end of
    its chunk.  On a chunk of [k >= 1] segments that starts inside the
    readable bytes, with fuel for [k] passes, the loop is done, in the
    state of the loop without bounds, when the readable bytes go on for
    at least eight bytes after [end]; when they stop earlier, be it at
    [end] itself, a load of the loop reaches outside them. *)
Theorem X12_avx2_loop_reads_past_end
        (mem : memory) (lo hi p k fuel : nat) :
  (1 <= k)%nat -> (k <= fuel)%nat -> (lo <= p)%nat ->
  let end_ := (p + 32 * k)%nat in
  ((end_ + 8 <= hi)%nat ->
   exists r, avx2_loop fuel mem p end_ = Some r /\
             avx2_loop_checked lo hi fuel mem p end_ = Done r) /\
  ((hi < end_ + 8)%nat ->
   avx2_loop_checked lo hi fuel mem p end_ = Fault).
Proof.
  intros Hk Hfuel Hlo end_. subst end_.
  assert (Hp : forall j, Wide.p (Nat.iter j (avx2_body mem) (wide_init 8 p))
                         = (p + 32 * j)%nat).
  { intros j. now rewrite avx2_iter. }
  split.
  - intros Hhi. eexists. split.
    + rewrite avx2_loop_exact by exact Hk.
      rewrite (proj2 (Nat.leb_le _ _) Hfuel). reflexivity.
    + unfold avx2_loop_checked.
      rewrite (do_while_checked_iter _ _ _ k).
      * rewrite (proj2 (Nat.leb_le _ _) Hfuel), avx2_iter. reflexivity.
      * exact Hk.
      * intros j Hj. apply avx2_loads_ok_iff. rewrite Hp. lia.
      * intros j Hj. rewrite Hp. apply negb_true_iff, Nat.eqb_neq. lia.
      * rewrite Hp. apply negb_false_iff, Nat.eqb_eq. reflexivity.
  - intros Hhi. unfold avx2_loop_checked.
    apply (do_while_checked_fault _ _ _ (k - 1)).
    + lia.
    + destruct (avx2_loads_ok lo hi
                  (Nat.iter (k - 1) (avx2_body mem) (wide_init 8 p)))
        eqn:E; [|reflexivity].
      apply avx2_loads_ok_iff in E. rewrite Hp in E. lia.
    + intros j Hj. rewrite Hp. apply negb_true_iff, Nat.eqb_neq. lia.
Qed.

(** A buffer of 64 bytes taken as one chunk of two segments. *)
Lemma X12_avx2_loop_reads_past_end_witness :
  avx2_loop_checked 0 64 2 (fun _ => xff) 0 (0 + 32 * 2) = Fault.
Proof.
  refine (proj2 (X12_avx2_loop_reads_past_end (fun _ => xff) 0 64 0 2 2
                   _ _ _) _); lia.
Defined.

(** X13: the loops of the SSE2 and AVX-512BW kernels read inside their
    chunk only: on a chunk of [k >= 1] segments that lies within the
    readable bytes, be they those of the chunk alone, with fuel for [k]
    passes each loop is done, in the state of the loop without
    bounds. *)
Theorem X13_sse2_avx512bw_loops_read_inside_chunk
        (mem : memory) (lo hi p k fuel : nat) :
  (1 <= k)%nat -> (k <= fuel)%nat -> (lo <= p)%nat ->
  ((p + 32 * k <= hi)%nat ->
   exists r, sse2_loop fuel mem p (p + 32 * k) = Some r /\
             sse2_loop_checked lo hi fuel mem p (p + 32 * k) = Done r) /\
  ((p + 64 * k <= hi)%nat ->
   exists r, avx512bw_loop fuel mem p (p + 64 * k) = Some r /\
             avx512bw_loop_checked lo hi fuel mem p (p + 64 * k) = Done r).
Proof.
  intros Hk Hfuel Hlo. split; intros Hhi; eexists; split.
  - rewrite sse2_loop_exact by exact Hk.
    rewrite (proj2 (Nat.leb_le _ _) Hfuel). reflexivity.
  - assert (Hp : forall j,
               Sse2.p (Nat.iter j (sse2_body mem) (sse2_init p))
               = (p + 32 * j)%nat).
    { intros j. now rewrite sse2_iter. }
    unfold sse2_loop_checked.
    rewrite (do_while_checked_iter _ _ _ k).
    + rewrite (proj2 (Nat.leb_le _ _) Hfuel), sse2_iter. reflexivity.
    + exact Hk.
    + intros j Hj. apply sse2_loads_ok_iff. rewrite Hp. lia.
    + intros j Hj. rewrite Hp. apply negb_true_iff, Nat.eqb_neq. lia.
    + rewrite Hp. apply negb_false_iff, Nat.eqb_eq. reflexivity.
  - rewrite avx512bw_loop_exact by exact Hk.
    rewrite (proj2 (Nat.leb_le _ _) Hfuel). reflexivity.
  - assert (Hp : forall j,
               Wide.p (Nat.iter j (avx512bw_body mem) (wide_init 16 p))
               = (p + 64 * j)%nat).
    { intros j. now rewrite avx512bw_iter. }
    unfold avx512bw_loop_checked.
    rewrite (do_while_checked_iter _ _ _ k).
    + rewrite (proj2 (Nat.leb_le _ _) Hfuel), avx512bw_iter. reflexivity.
    + exact Hk.
    + intros j Hj. apply avx512bw_loads_ok_iff. rewrite Hp. lia.
    + intros j Hj. rewrite Hp. apply negb_true_iff, Nat.eqb_neq. lia.
    + rewrite Hp. apply negb_false_iff, Nat.eqb_eq. reflexivity.
Qed.

Lemma X13_sse2_avx512bw_loops_read_inside_chunk_witness :
  (exists r, sse2_loop 2 (fun _ => xff) 16 (16 + 32 * 2) = Some r /\
             sse2_loop_checked 16 80 2 (fun _ => xff) 16 (16 + 32 * 2)
             = Done r) /\
  (exists r, avx512bw_loop 2 (fun _ => xff) 16 (16 + 64 * 2) = Some r /\
             avx512bw_loop_checked 16 144 2 (fun _ => xff) 16 (16 + 64 * 2)
             = Done r).
Proof.
  split.
  - refine (proj1 (X13_sse2_avx512bw_loops_read_inside_chunk
                     (fun _ => xff) 16 80 16 2 2 _ _ _) _); lia.
  - refine (proj2 (X13_sse2_avx512bw_loops_read_inside_chunk
                     (fun _ => xff) 16 144 16 2 2 _ _ _) _); lia.
Defined.

(** X14: read with [DEFAULT_IMPL] not yet defined and no kernel defined
    before, the file compiles kernel [f] if and only if [f] can be used
    (its instruction set is enabled at compile time, or run-time
    detection is enabled and the compiler supports its target
    intrinsics) and no wider instruction set is enabled at compile
    time; every kernel it compiles is either the default
    implementation or behind a [DISPATCH_*] macro, and the other way
    round. *)
Theorem X14_compiled_kernels
        (env : build_env) (m : macros) (f : adler32_func_t) :
  DEFAULT_IMPL m = None -> defined_funcs m = [] ->
  let m' := adler32_impl_h env m in
  (In f (defined_funcs m') <->
   (isa_defined env f = true \/
    (X86_CPU_FEATURES_ENABLED env = true /\
     target_intrinsics env f = true)) /\
   forall f', (vector_width f < vector_width f')%nat ->
              isa_defined env f' = false) /\
  (In f (defined_funcs m') <->
   DEFAULT_IMPL m' = Some f \/ compiled_in (dispatch_macros m') f = true).
Proof.
  intros H0 Hf m'. subst m'. by_flags env m.
  destruct cfg as [c512 c2 c1].
  destruct i512, i2, i1, fe, t512, t2, t1, f;
    cbn;
    (split; split;
     [ intros H;
       first [ contradiction
             | split; [tauto|];
               intros f' Hw; destruct f'; cbn in Hw |- *;
               first [reflexivity | lia]
             | exfalso; intuition discriminate ]
     | intros [H1 H2]; use_wider;
       first [ tauto | discriminate | intuition discriminate ]
     | intros H; first [ contradiction | tauto | intuition discriminate ]
     | intros H; first [ tauto | intuition discriminate ] ]).
Qed.

Lemma X14_compiled_kernels_witness :
  let env := {| defined_AVX512BW := false; defined_AVX2 := true;
                defined_SSE2 := true; X86_CPU_FEATURES_ENABLED := true;
                COMPILER_SUPPORTS_AVX512BW_TARGET_INTRINSICS := true;
                COMPILER_SUPPORTS_AVX2_TARGET_INTRINSICS := true;
                COMPILER_SUPPORTS_SSE2_TARGET_INTRINSICS := true |} in
  ~ In adler32_sse2 (defined_funcs (adler32_impl_h env no_macros)).
Proof.
  intros env H.
  apply (proj1 (proj1 (X14_compiled_kernels env no_macros adler32_sse2
                         eq_refl eq_refl))) in H.
  destruct H as [_ H]. specialize (H adler32_avx2). cbn in H.
  discriminate H. lia.
Defined.

(** X15: read with [DEFAULT_IMPL] already defined, the file compiles no
    kernel, leaves [DEFAULT_IMPL] and [DISPATCH] as they are and every
    [DISPATCH_*] macro undefined; a dispatcher compiled because
    [DISPATCH] was defined before then returns [NULL] for every
    capability bitset. *)
Theorem X15_default_impl_predefined
        (env : build_env) (m : macros) (g : adler32_func_t)
        (masks : feature_masks) (features : Z) :
  DEFAULT_IMPL m = Some g ->
  let m' := adler32_impl_h env m in
  DEFAULT_IMPL m' = Some g /\
  DISPATCH m' = DISPATCH m /\
  defined_funcs m' = defined_funcs m /\
  (forall f, compiled_in (dispatch_macros m') f = false) /\
  arch_select_adler32_func (dispatch_macros m') masks features = None.
Proof.
  intros H0 m'. subst m'.
  unfold adler32_impl_h, impl_block.
  destruct m as [di d cfg funcs]. cbn in H0. subst di.
  cbn [DEFAULT_IMPL DISPATCH dispatch_macros defined_funcs andb].
  destruct cfg as [c512 c2 c1].
  repeat split.
  intros f. destruct f; reflexivity.
Qed.

Lemma X15_default_impl_predefined_witness :
  let env := {| defined_AVX512BW := true; defined_AVX2 := true;
                defined_SSE2 := true; X86_CPU_FEATURES_ENABLED := true;
                COMPILER_SUPPORTS_AVX512BW_TARGET_INTRINSICS := true;
                COMPILER_SUPPORTS_AVX2_TARGET_INTRINSICS := true;
                COMPILER_SUPPORTS_SSE2_TARGET_INTRINSICS := true |} in
  let m := {| DEFAULT_IMPL := Some adler32_sse2; DISPATCH := true;
              dispatch_macros := {| DISPATCH_AVX512BW := true;
                                    DISPATCH_AVX2 := true;
                                    DISPATCH_SSE2 := true |};
              defined_funcs := [adler32_sse2] |} in
  let masks := {| X86_CPU_FEATURE_SSE2 := 0x1; X86_CPU_FEATURE_AVX2 := 0x8;
                  X86_CPU_FEATURE_AVX512BW := 0x20 |} in
  arch_select_adler32_func (dispatch_macros (adler32_impl_h env m)) masks 0x29
  = None.
Proof.
  intros env m masks.
  exact (proj2 (proj2 (proj2 (proj2
           (X15_default_impl_predefined env m adler32_sse2 masks 0x29
              eq_refl))))).
Defined.
